(** * The Chromium socket proxy of [src/browser/transports/chromium_socket.ts]

    A shallow embedding of [createChromiumSocket], [startProxyConnection] and
    [authenticateChromiumSocket].  The module is event driven: every
    [x.on('evt', closure)] of the source registers a closure with an emitter,
    and the host (Electron's [net], Node's [net] and the caller) later emits
    events.  Closures are represented by a first-order [Listener] carrying
    their captured variables; what a call does to the outside world (log
    lines, calls on sockets, the caller's callbacks) is collected as a list
    of [Action]s. *)

From Stdlib Require Import ZArith Ascii String List Bool Lia.
From stdpp Require Import base option gmap strings list fin_maps.
Import ListNotations.
Local Open Scope string_scope.
Local Open Scope Z_scope.

(** ** Values shared with the host *)

(** Objects handed out by the host are identified by numbers: the object
    returned by [net.request], the [response] of a [requestSocketConnected]
    event, the server of [nodeNet.createServer], an accepted [nodeNet.Socket]. *)
Abbreviation Handle := nat (only parsing).
Abbreviation ResponseId := nat (only parsing).
Abbreviation ServerId := nat (only parsing).
Abbreviation ConnId := nat (only parsing).

Definition Buffer := list Byte.byte.

(** The object returned by [parseUrl] (Node's legacy [Url]). *)
Record Url := {
  protocol : option string;
  slashes : bool;
  auth : option string;
  host : option string;
  port : option string;
  hostname : option string;
  hash : option string;
  search : option string;
  query : option string;
  pathname : option string;
  path : option string;
  href : string
}.

(** [mappedUrl.protocol = p] *)
Definition set_protocol (u : Url) (p : option string) : Url :=
  {| protocol := p; slashes := slashes u; auth := auth u; host := host u;
     port := port u; hostname := hostname u; hash := hash u;
     search := search u; query := query u; pathname := pathname u;
     path := path u; href := href u |}.

(** [import {parse as parseUrl, format as formatUrl} from 'url'] *)
Class UrlModule := {
  parseUrl : string -> Url;
  formatUrl : Url -> string
}.

(** ** Node's [url] module on plain URLs

    [node_parse] and [node_format] follow Node's legacy [url.parse] and
    [url.format] for inputs of the shape
    [scheme://host[:port][/path][?search][#hash]] or a bare relative path,
    made of characters that Node neither escapes nor rejects (no
    credentials before the host, no white space around or inside, no
    backslash, no character that [url.parse] percent-encodes).  Outside
    this shape they are not Node's functions.  They are used to evaluate the
    program on concrete URLs of this shape; the general statements below
    hold for every [UrlModule]. *)

Definition lower_ascii (c : ascii) : ascii :=
  let n := nat_of_ascii c in
  if (Nat.leb 65 n && Nat.leb n 90)%bool then ascii_of_nat (n + 32) else c.

Fixpoint toLowerCase (s : string) : string :=
  match s with
  | EmptyString => EmptyString
  | String c r => String (lower_ascii c) (toLowerCase r)
  end.

Definition is_digit (c : ascii) : bool :=
  let n := nat_of_ascii c in (Nat.leb 48 n && Nat.leb n 57)%bool.

(** a character of [protocolPattern = /^([a-z0-9.+-]+:)/i] before the colon *)
Definition is_scheme_char (c : ascii) : bool :=
  let n := nat_of_ascii (lower_ascii c) in
  ((Nat.leb 97 n && Nat.leb n 122) || is_digit c
   || Nat.eqb n 46 || Nat.eqb n 43 || Nat.eqb n 45)%bool.

(** longest prefix of characters satisfying [p], and the rest *)
Fixpoint span (p : ascii -> bool) (s : string) : string * string :=
  match s with
  | EmptyString => (EmptyString, EmptyString)
  | String c r =>
      if p c then let '(a, b) := span p r in (String c a, b)
      else (EmptyString, s)
  end.

Definition nonempty (s : string) : bool :=
  match s with EmptyString => false | _ => true end.

(** [protocolPattern.exec(rest)]: the scheme with its colon, and what follows *)
Definition match_protocol (s : string) : option (string * string) :=
  let '(scheme, rest) := span is_scheme_char s in
  match rest with
  | String ":" rest' =>
      if nonempty scheme then Some (scheme ++ ":", rest') else None
  | _ => None
  end.

Definition slashedProtocol (p : string) : bool :=
  bool_decide (p ∈ ["http:"; "https:"; "ftp:"; "gopher:"; "file:"; "ws:"; "wss:";
                    "http"; "https"; "ftp"; "gopher"; "file"; "ws"; "wss"]).

Definition hostlessProtocol (p : string) : bool :=
  bool_decide (p ∈ ["javascript:"; "javascript"]).

Definition is_host_end (c : ascii) : bool :=
  bool_decide (c ∈ ["/"; "?"; "#"]%char).

(** [Url.prototype.parseHost]: split a trailing [:digits] off the host *)
Fixpoint parseHost (h : string) : string * option string :=
  match h with
  | EmptyString => (EmptyString, None)
  | String c r =>
      if (Ascii.eqb c ":" && forallb is_digit (list_ascii_of_string r))%bool
      then (EmptyString, if nonempty r then Some r else None)
      else let '(n, p) := parseHost r in (String c n, p)
  end.

Definition some_if_nonempty (s : string) : option string :=
  if nonempty s then Some s else None.

Definition truthy (o : option string) : bool :=
  match o with Some s => nonempty s | None => false end.

Definition or_empty (o : option string) : string := default EmptyString o.

Definition ends_with_colon (s : string) : bool :=
  match String.get (Nat.pred (String.length s)) s with
  | Some c => Ascii.eqb c ":"
  | None => false
  end.

Definition starts_with (c : ascii) (s : string) : bool :=
  match s with String d _ => Ascii.eqb c d | EmptyString => false end.

(** [Url.prototype.format] *)
Definition node_format (u : Url) : string :=
  let proto := or_empty (protocol u) in
  let proto :=
    if (nonempty proto && negb (ends_with_colon proto))%bool
    then proto ++ ":" else proto in
  let pathname0 := or_empty (pathname u) in
  let hash0 := or_empty (hash u) in
  let host0 : option string :=
    if truthy (host u) then Some (or_empty (host u))
    else if truthy (hostname u)
         then Some (or_empty (hostname u) ++
                    (if truthy (port u) then ":" ++ or_empty (port u)
                     else EmptyString))
         else None in
  let search0 := or_empty (search u) in
  let slashed :=
    (slashes u || ((negb (nonempty proto) || slashedProtocol proto)
                   && bool_decide (host0 <> None)))%bool in
  let host1 := if slashed then "//" ++ or_empty host0 else or_empty host0 in
  let pathname1 :=
    if (slashed && nonempty pathname0 && negb (starts_with "/" pathname0))%bool
    then "/" ++ pathname0 else pathname0 in
  let hash1 :=
    if (nonempty hash0 && negb (starts_with "#" hash0))%bool
    then "#" ++ hash0 else hash0 in
  let search1 :=
    if (nonempty search0 && negb (starts_with "?" search0))%bool
    then "?" ++ search0 else search0 in
  proto ++ host1 ++ pathname1 ++ search1 ++ hash1.

(** [Url.prototype.parse] *)
Definition node_parse (s : string) : Url :=
  let '(proto, rest) :=
    match match_protocol s with
    | Some (p, r) => (Some (toLowerCase p), r)
    | None => (None, s)
    end in
  let hostless := match proto with Some p => hostlessProtocol p | None => false end in
  let slashed_proto := match proto with Some p => slashedProtocol p | None => false end in
  let has_slashes :=
    (bool_decide (proto <> None) && String.prefix "//" rest && negb hostless)%bool in
  let rest := if has_slashes then String.substring 2 (String.length rest) rest else rest in
  let has_host :=
    (negb hostless
     && (has_slashes || (bool_decide (proto <> None) && negb slashed_proto)))%bool in
  let '(hostpart, rest) :=
    if has_host then span (fun c => negb (is_host_end c)) rest
    else (EmptyString, rest) in
  let '(name, prt) := parseHost hostpart in
  let name := toLowerCase name in
  let '(rest, hsh) := span (fun c => negb (Ascii.eqb c "#")) rest in
  let '(rest, srch) := span (fun c => negb (Ascii.eqb c "?")) rest in
  let pathname0 :=
    if (slashed_proto && nonempty name && negb (nonempty rest))%bool
    then Some "/" else some_if_nonempty rest in
  let u :=
    {| protocol := proto;
       slashes := has_slashes;
       auth := None;
       host := if has_host
               then Some (name ++ match prt with Some p => ":" ++ p | None => EmptyString end)
               else None;
       port := prt;
       hostname := if has_host then Some name else None;
       hash := some_if_nonempty hsh;
       search := some_if_nonempty srch;
       query := if nonempty srch
                then Some (String.substring 1 (String.length srch) srch) else None;
       pathname := pathname0;
       path := if (truthy pathname0 || nonempty srch)%bool
               then Some (or_empty pathname0 ++ srch) else None;
       href := EmptyString |} in
  {| protocol := protocol u; slashes := slashes u; auth := auth u;
     host := host u; port := port u; hostname := hostname u; hash := hash u;
     search := search u; query := query u; pathname := pathname u;
     path := path u; href := node_format u |}.

Definition nodeUrl : UrlModule :=
  {| parseUrl := node_parse; formatUrl := node_format |}.

(** ** The protocol table *)

Record RequestProtocol := {
  rp_port : Z;
  secureProtocol : option string;
  chromiumProtocol : option string
}.

Definition ProtocolMap : gmap string RequestProtocol :=
  list_to_map
    [ ("rtmp:",  {| rp_port := 1935; secureProtocol := Some "rtmps:";
                    chromiumProtocol := Some "http:" |});
      ("rtmps:", {| rp_port := 443; secureProtocol := None;
                    chromiumProtocol := Some "https:" |});
      ("http:",  {| rp_port := 80; secureProtocol := Some "https:";
                    chromiumProtocol := None |});
      ("https:", {| rp_port := 443; secureProtocol := None;
                    chromiumProtocol := None |}) ].

Local Open Scope list_scope.

(** ** Messages between the module, its caller and the host *)

Record CreateProxyResponse := {
  success : bool;
  data : option (Z * string)   (* {port, originalUrl} *)
}.

(** [callback] is a function of the caller and always present; the source
    tests [errorCallback] before calling it, so the request records whether
    one was supplied. *)
Record CreateProxyRequest := {
  url : string;
  errorCallback : bool
}.

Record AuthProxyRequest := {
  auth_url : string;
  username : string;
  password : string
}.

Record ProxyAuthEvent := {
  ev_url : string;
  isProxy : bool
}.

(** [ProxyEvent]: the event type together with the payload that the source
    attaches to it. *)
Inductive ProxyEvent :=
| Open
| Listening (payload : Z)
| Data (payload : Buffer)
| Closed.

(** One constructor per [log.writeToLog] call of the source, with the
    values it interpolates.  Values that only the host knows (the [flushed]
    result of [conn.write], the address of a server, the local port of a
    connection) are left out. *)
Inductive LogEntry :=
| log_applying_secure_protocol (secure : option string)
| log_mapped_URL (u : string)
| log_requestSocketConnected
| log_output_chromium_data (len : nat)
| log_close_chromium_socket
| log_auth_requested (u : string)
| log_request_error (err : string)
| log_request_closed (u : string)
| log_new_connection (conn : ConnId)
| log_input_data (len : nat)
| log_socket_closed (hadError : bool)
| log_socket_ended
| log_socket_timeout
| log_connect_error (err : string)
| log_input_chromium_data (len : nat)
| log_input_chromium_text (payload : Buffer)
| log_duplicate_connection (s : ServerId)
| log_response_error (err : string)
| log_server_info (s : ServerId)
| log_server_closed
| log_server_error (err : string).

(** What a property read on [requestMap] can produce. *)
Inductive JsValue :=
| undefined
| request_object (h : Handle)
| inherited (k : string)              (* a member of [Object.prototype] *)
| member_of (h : Handle) (k : string) (* [h[k]], read through a replaced prototype:
                                         whatever the request holds there, if anything *).

Inductive JsError := TypeError.

(** Calls that leave the module. *)
Inductive Action :=
| writeToLog (entry : LogEntry)
| net_request (request : Handle) (u : string) (dataSocket : bool)
| request_createConnection (request : Handle)
| request_writeSocket (request : Handle) (payload : Buffer)
| request_closeSocket (request : Handle)
| authenticateSocket (target : JsValue) (user pass : string)
| authenticateSocket_if_truthy (target : JsValue) (user pass : string)
| ofEvents_emit_system (topic : string) (event : ProxyAuthEvent)
| req_callback (request : Handle) (result : CreateProxyResponse)
| req_errorCallback (request : Handle) (err : string)
| nodeNet_createServer (s : ServerId)
| server_maxConnections (s : ServerId) (n : Z)
| server_listen (s : ServerId) (p : Z) (hostname : string)
| server_close (s : ServerId)
| conn_write (conn : ConnId) (payload : Buffer)
| conn_end (conn : ConnId)
| conn_destroy (conn : ConnId)
| throw (e : JsError).

(** Events the host delivers, with their arguments.  [ev_close] carries the
    [hadError] flag of a socket; servers and requests pass none. *)
Inductive Signal :=
| ev_requestSocketConnected (response : ResponseId)
| ev_socketAuthRequired (event : ProxyAuthEvent)
| ev_error (err : string)
| ev_close (hadError : bool)
| ev_connection (conn : ConnId)
| ev_listening (address_port : Z)
| ev_data (payload : Buffer)
| ev_end
| ev_timeout.

Definition event_name (sig : Signal) : string :=
  match sig with
  | ev_requestSocketConnected _ => "requestSocketConnected"
  | ev_socketAuthRequired _ => "socketAuthRequired"
  | ev_error _ => "error"
  | ev_close _ => "close"
  | ev_connection _ => "connection"
  | ev_listening _ => "listening"
  | ev_data _ => "data"
  | ev_end => "end"
  | ev_timeout => "timeout"
  end.

Inductive Emitter :=
| ERequest (request : Handle)
| EResponse (response : ResponseId)
| EServer (s : ServerId)
| EConn (conn : ConnId).

Global Instance Emitter_eq_dec : EqDecision Emitter.
Proof. solve_decision. Defined.

(** The arrow function passed to [startProxyConnection] closes over [req]
    and [request]. *)
Record ProxyCallback := {
  pc_req : CreateProxyRequest;
  pc_request : Handle
}.

(** The closures of the source, each with the variables it captures. *)
Inductive Listener :=
| on_requestSocketConnected (req : CreateProxyRequest) (request : Handle)
| on_socketAuthRequired
| on_request_error (req : CreateProxyRequest) (request : Handle)
| on_request_close (req : CreateProxyRequest)
| connectionListener (s : ServerId)
| on_response_error (s : ServerId)
| on_server_listening (s : ServerId)
| on_server_close (s : ServerId)
| on_server_error (s : ServerId)
| on_conn_data (s : ServerId)
| on_conn_close (s : ServerId)
| on_conn_end
| on_conn_timeout
| on_conn_error
| on_response_data (conn : ConnId).

(** ** Module state *)

(** [requestMap] is an object literal used as a map, with requests as
    values.  [own] holds its own properties.  Reads fall through to the
    prototype, which is [Object.prototype] ([None]) until an assignment to
    the key ["__proto__"] replaces it by the assigned request object. *)
Record JsObject := {
  own : gmap string Handle;
  proto : option Handle
}.

(** The names of the members of [Object.prototype]. *)
Definition ObjectPrototype : list string :=
  [ "constructor"; "__defineGetter__"; "__defineSetter__"; "hasOwnProperty";
    "__lookupGetter__"; "__lookupSetter__"; "isPrototypeOf";
    "propertyIsEnumerable"; "toString"; "valueOf"; "__proto__";
    "toLocaleString" ].

(** [o[k]] *)
Definition js_get (o : JsObject) (k : string) : JsValue :=
  match own o !! k with
  | Some h => request_object h
  | None =>
      match proto o with
      | None => if bool_decide (k ∈ ObjectPrototype) then inherited k else undefined
      | Some h => if bool_decide (k = "__proto__") then request_object h else member_of h k
      end
  end.

(** [o[k] = request]: the inherited ["__proto__"] setter replaces the
    prototype, any other key becomes an own property (the other members of
    [Object.prototype] are writable data properties, and so are taken to be
    those of a request object). *)
Definition js_set (o : JsObject) (k : string) (request : Handle) : JsObject :=
  if bool_decide (k = "__proto__")
  then {| own := own o; proto := Some request |}
  else {| own := <[k := request]> (own o); proto := proto o |}.

(** [delete o[k]] removes an own property only. *)
Definition js_delete (o : JsObject) (k : string) : JsObject :=
  {| own := delete k (own o); proto := proto o |}.

(** A server created by [startProxyConnection], with the variables its
    closures share; [clientConn] is the one that is assigned. *)
Record Server := {
  proxyCallback : ProxyCallback;
  response : ResponseId;
  clientConn : option ConnId
}.

Record State := {
  requestMap : JsObject;
  next_request : Handle;    (* number of objects [net.request] has returned *)
  servers : list Server;
  listeners : list (Emitter * string * Listener)
}.

Definition init : State :=
  {| requestMap := {| own := ∅; proto := None |};
     next_request := 0%nat; servers := []; listeners := [] |}.

(** ** Commands: state passing with a trace of actions *)

Definition M (A : Type) : Type := State -> A * State * list Action.

Definition ret {A} (a : A) : M A := fun st => (a, st, []).

Definition bind {A B} (m : M A) (k : A -> M B) : M B := fun st =>
  let '(a, st1, t1) := m st in
  let '(b, st2, t2) := k a st1 in
  (b, st2, t1 ++ t2).

Global Instance M_ret : MRet M := @ret.
Global Instance M_bind : MBind M := fun A B k m => bind m k.

Definition act (a : Action) : M unit := fun st => (tt, st, [a]).

Definition acts (l : list Action) : M unit := fun st => (tt, st, l).

Definition get_state : M State := fun st => (st, st, []).

Definition when (b : bool) (m : M unit) : M unit := if b then m else ret tt.

(** [emitter.on(event, listener)] *)
Definition on (e : Emitter) (event : string) (l : Listener) : M unit := fun st =>
  (tt, {| requestMap := requestMap st; next_request := next_request st;
          servers := servers st;
          listeners := listeners st ++ [(e, event, l)] |}, []).

Definition set_requestMap (f : JsObject -> JsObject) : M unit := fun st =>
  (tt, {| requestMap := f (requestMap st); next_request := next_request st;
          servers := servers st; listeners := listeners st |}, []).

Definition set_clientConn (s : ServerId) (conn : ConnId) : M unit := fun st =>
  (tt, {| requestMap := requestMap st; next_request := next_request st;
          servers := alter (fun srv => {| proxyCallback := proxyCallback srv;
                                          response := response srv;
                                          clientConn := Some conn |}) s (servers st);
          listeners := listeners st |}, []).

Definition exec {A} (m : M A) (st : State) : State := snd (fst (m st)).
Definition trace {A} (m : M A) (st : State) : list Action := snd (m st).

(** ** [createChromiumSocket] *)

(** Lines 72-84: the protocol given to [mappedUrl], with the log line
    written on the way.  [ProtocolMap !! p] is [hasOwnProperty] followed by
    the indexed read. *)
Definition remap (originalUrl mappedUrl : Url) : Url * list Action :=
  match protocol originalUrl ≫= (ProtocolMap !!.) with
  | Some reqProtocol =>
      if truthy (chromiumProtocol reqProtocol) then
        let mappedUrl := set_protocol mappedUrl (chromiumProtocol reqProtocol) in
        if (bool_decide (port originalUrl = Some "443")
            && truthy (secureProtocol reqProtocol))%bool
        then
          (match secureProtocol reqProtocol ≫= (ProtocolMap !!.) with
           | Some secure => set_protocol mappedUrl (chromiumProtocol secure)
           | None => mappedUrl
           end,
           [writeToLog (log_applying_secure_protocol (secureProtocol reqProtocol))])
        else (mappedUrl, [])
      else (mappedUrl, [])
  | None => (mappedUrl, [])
  end.

(** The URL handed to [net.request]. *)
Definition transportUrl `{UrlModule} (u : string) : string :=
  formatUrl (fst (remap (parseUrl u) (parseUrl u))).

(** [net.request({url, dataSocket: true})] returns a new object. *)
Definition new_request (u : string) : M Handle := fun st =>
  (next_request st,
   {| requestMap := requestMap st; next_request := S (next_request st);
      servers := servers st; listeners := listeners st |},
   [net_request (next_request st) u true]).

Definition createChromiumSocket `{UrlModule} (req : CreateProxyRequest) : M unit :=
  let originalUrl := parseUrl (url req) in
  let mapped := remap originalUrl (parseUrl (url req)) in
  acts (snd mapped);;
  let u := formatUrl (fst mapped) in
  act (writeToLog (log_mapped_URL u));;
  request ← new_request u;
  set_requestMap (fun m => js_set m (url req) request);;
  on (ERequest request) "requestSocketConnected" (on_requestSocketConnected req request);;
  on (ERequest request) "socketAuthRequired" on_socketAuthRequired;;
  on (ERequest request) "error" (on_request_error req request);;
  on (ERequest request) "close" (on_request_close req);;
  act (request_createConnection request).

(** The arrow function of lines 93-106. *)
Definition call_proxyCallback `{UrlModule} (pc : ProxyCallback) (event : ProxyEvent) : M unit :=
  match event with
  | Data payload =>
      act (writeToLog (log_output_chromium_data (length payload)));;
      act (request_writeSocket (pc_request pc) payload)
  | _ => ret tt
  end;;
  match event with
  | Closed =>
      act (writeToLog log_close_chromium_socket);;
      act (request_closeSocket (pc_request pc))
  | _ => ret tt
  end;;
  match event with
  | Listening p =>
      act (req_callback (pc_request pc)
             {| success := true;
                data := Some (p, formatUrl (parseUrl (url (pc_req pc)))) |})
  | _ => ret tt
  end.

(** ** [startProxyConnection] *)

(** [nodeNet.createServer(listener)]: a new server whose ['connection']
    listener is the given closure. *)
Definition createServer (pc : ProxyCallback) (r : ResponseId) : M ServerId := fun st =>
  let s := length (servers st) in
  (s,
   {| requestMap := requestMap st; next_request := next_request st;
      servers := servers st ++ [{| proxyCallback := pc; response := r; clientConn := None |}];
      listeners := listeners st ++ [(EServer s, "connection", connectionListener s)] |},
   [nodeNet_createServer s]).

Definition startProxyConnection (pc : ProxyCallback) (r : ResponseId) : M unit :=
  s ← createServer pc r;
  on (EResponse r) "error" (on_response_error s);;
  act (server_maxConnections s 1);;
  on (EServer s) "listening" (on_server_listening s);;
  on (EServer s) "close" (on_server_close s);;
  on (EServer s) "error" (on_server_error s);;
  act (server_listen s 0 "localhost").

(** A closure of [startProxyConnection] reading the variables of its server. *)
Definition with_server (s : ServerId) (k : Server -> M unit) : M unit :=
  st ← get_state;
  match servers st !! s with
  | Some srv => k srv
  | None => ret tt
  end.

(** The body of each closure, applied to the arguments of the event. *)
Definition run_listener `{UrlModule} (l : Listener) (sig : Signal) : M unit :=
  match l, sig with
  | on_requestSocketConnected req request, ev_requestSocketConnected r =>
      act (writeToLog log_requestSocketConnected);;
      startProxyConnection {| pc_req := req; pc_request := request |} r
  | on_socketAuthRequired, ev_socketAuthRequired event =>
      act (writeToLog (log_auth_requested (ev_url event)));;
      act (ofEvents_emit_system "proxy-socket-auth-requested"
             {| ev_url := ev_url event; isProxy := isProxy event |})
  | on_request_error req request, ev_error err =>
      act (writeToLog (log_request_error err));;
      act (request_closeSocket request);;
      when (errorCallback req) (act (req_errorCallback request err))
  | on_request_close req, ev_close _ =>
      act (writeToLog (log_request_closed (url req)));;
      set_requestMap (fun m => js_delete m (url req))
  | connectionListener s, ev_connection conn =>
      with_server s (fun srv =>
        match clientConn srv with
        | None =>
            act (writeToLog (log_new_connection conn));;
            set_clientConn s conn;;
            on (EConn conn) "data" (on_conn_data s);;
            on (EConn conn) "close" (on_conn_close s);;
            on (EConn conn) "end" on_conn_end;;
            on (EConn conn) "timeout" on_conn_timeout;;
            on (EConn conn) "error" on_conn_error;;
            on (EResponse (response srv)) "data" (on_response_data conn)
        | Some _ =>
            act (writeToLog (log_duplicate_connection s));;
            act (conn_end conn)
        end)
  | on_conn_data s, ev_data payload =>
      act (writeToLog (log_input_data (length payload)));;
      with_server s (fun srv => call_proxyCallback (proxyCallback srv) (Data payload))
  | on_conn_close s, ev_close hadError =>
      act (writeToLog (log_socket_closed hadError));;
      act (server_close s)
  | on_conn_end, ev_end => act (writeToLog log_socket_ended)
  | on_conn_timeout, ev_timeout => act (writeToLog log_socket_timeout)
  | on_conn_error, ev_error err => act (writeToLog (log_connect_error err))
  | on_response_data conn, ev_data payload =>
      act (conn_write conn payload);;
      act (writeToLog (log_input_chromium_data (length payload)));;
      act (writeToLog (log_input_chromium_text payload))
  | on_response_error s, ev_error err =>
      act (writeToLog (log_response_error err));;
      with_server s (fun srv =>
        match clientConn srv with
        | Some conn => act (conn_destroy conn)
        | None => act (server_close s)
        end)
  | on_server_listening s, ev_listening p =>
      act (writeToLog (log_server_info s));;
      with_server s (fun srv => call_proxyCallback (proxyCallback srv) (Listening p))
  | on_server_close s, ev_close _ =>
      act (writeToLog log_server_closed);;
      with_server s (fun srv => call_proxyCallback (proxyCallback srv) Closed)
  | on_server_error s, ev_error err =>
      act (writeToLog (log_server_error err));;
      act (server_close s)
  | _, _ => ret tt
  end.

(** ** [authenticateChromiumSocket] *)

(** [inherited] members are functions or objects without an
    [authenticateSocket] method: the test passes and the call throws.  A
    [member_of] value is what the host's request object holds under the
    key, which may be nothing: the test of line 196 and the call of line 197
    are then recorded as one action, [authenticateSocket_if_truthy], whose
    outcome is the host's. *)
Definition authenticateChromiumSocket (req : AuthProxyRequest) : M unit :=
  st ← get_state;
  match js_get (requestMap st) (auth_url req) with
  | undefined => ret tt
  | inherited _ => act (throw TypeError)
  | request_object h =>
      act (authenticateSocket (request_object h) (username req) (password req))
  | member_of h k =>
      act (authenticateSocket_if_truthy (member_of h k) (username req) (password req))
  end.

(** ** Event delivery *)

(** The listeners registered on [e] for [event], in registration order. *)
Definition subscribed (e : Emitter) (event : string) (st : State) : list Listener :=
  omap (fun '(e', event', l) =>
          if (bool_decide (e' = e) && bool_decide (event' = event))%bool
          then Some l else None)
       (listeners st).

Fixpoint run_listeners `{UrlModule} (ls : list Listener) (sig : Signal) : M unit :=
  match ls with
  | [] => ret tt
  | l :: rest => run_listener l sig;; run_listeners rest sig
  end.

(** [e.emit(event, args)]: the listeners present when the event is emitted
    run in order.  This is the part of the module in an event: what the host
    does besides, such as raising an ['error'] that no listener takes, is
    not recorded. *)
Definition emit `{UrlModule} (e : Emitter) (sig : Signal) : M unit :=
  st ← get_state;
  run_listeners (subscribed e (event_name sig) st) sig.

(** What can happen to the module: a call of an exported function, or an
    event of the host. *)
Inductive Input :=
| call_createChromiumSocket (req : CreateProxyRequest)
| call_authenticateChromiumSocket (req : AuthProxyRequest)
| host_emits (e : Emitter) (sig : Signal).

Definition step `{UrlModule} (i : Input) : M unit :=
  match i with
  | call_createChromiumSocket req => createChromiumSocket req
  | call_authenticateChromiumSocket req => authenticateChromiumSocket req
  | host_emits e sig => emit e sig
  end.

Fixpoint run `{UrlModule} (inputs : list Input) : M unit :=
  match inputs with
  | [] => ret tt
  | i :: rest => step i;; run rest
  end.

(** ** The host's answers to close calls

    The close events by which the host answers the module: a destroyed
    socket emits ['close'], a server asked to close emits ['close'] once no
    connection is left, and a request whose socket is closed emits
    ['close'].  [host_reaction] gives the answer at once, which is the
    host's answer for a socket that is still open and for a server whose
    connections are closed or that has none; the statements below use it in
    such states only.  [settle] delivers pending inputs, and the events
    caused by the actions of each, until none is left. *)
Definition host_reaction (a : Action) : list Input :=
  match a with
  | conn_destroy conn => [host_emits (EConn conn) (ev_close false)]
  | server_close s => [host_emits (EServer s) (ev_close false)]
  | request_closeSocket request => [host_emits (ERequest request) (ev_close false)]
  | _ => []
  end.

Fixpoint settle `{UrlModule} (fuel : nat) (pending : list Input) (st : State)
  : option (State * list Action) :=
  match pending with
  | [] => Some (st, [])
  | i :: rest =>
      match fuel with
      | O => None
      | S fuel' =>
          let '(_, st1, t1) := step i st in
          match settle fuel' (rest ++ flat_map host_reaction t1) st1 with
          | Some (st2, t2) => Some (st2, t1 ++ t2)
          | None => None
          end
      end
  end.

(** ** The states the closures lead to *)

(** After [createChromiumSocket req]. *)
Definition created (st : State) (req : CreateProxyRequest) : State :=
  {| requestMap := js_set (requestMap st) (url req) (next_request st);
     next_request := S (next_request st);
     servers := servers st;
     listeners := listeners st ++
       [ (ERequest (next_request st), "requestSocketConnected",
          on_requestSocketConnected req (next_request st));
         (ERequest (next_request st), "socketAuthRequired", on_socketAuthRequired);
         (ERequest (next_request st), "error", on_request_error req (next_request st));
         (ERequest (next_request st), "close", on_request_close req) ] |}.

(** After [startProxyConnection pc r]. *)
Definition started (st : State) (pc : ProxyCallback) (r : ResponseId) : State :=
  let s := length (servers st) in
  {| requestMap := requestMap st; next_request := next_request st;
     servers := servers st ++ [{| proxyCallback := pc; response := r; clientConn := None |}];
     listeners := listeners st ++
       [ (EServer s, "connection", connectionListener s);
         (EResponse r, "error", on_response_error s);
         (EServer s, "listening", on_server_listening s);
         (EServer s, "close", on_server_close s);
         (EServer s, "error", on_server_error s) ] |}.

(** After server [s] has taken [conn] as its client connection. *)
Definition accepted (st : State) (s : ServerId) (conn : ConnId) (r : ResponseId) : State :=
  {| requestMap := requestMap st; next_request := next_request st;
     servers := alter (fun srv => {| proxyCallback := proxyCallback srv;
                                     response := response srv;
                                     clientConn := Some conn |}) s (servers st);
     listeners := listeners st ++
       [ (EConn conn, "data", on_conn_data s); (EConn conn, "close", on_conn_close s);
         (EConn conn, "end", on_conn_end); (EConn conn, "timeout", on_conn_timeout);
         (EConn conn, "error", on_conn_error);
         (EResponse r, "data", on_response_data conn) ] |}.

(** After [delete requestMap[u]]. *)
Definition unregistered (st : State) (u : string) : State :=
  {| requestMap := js_delete (requestMap st) u; next_request := next_request st;
     servers := servers st; listeners := listeners st |}.

(** ** Vocabulary of the statements *)

(** The state reached from the initial module state by a history of inputs. *)
Definition after `{UrlModule} (history : list Input) : State := exec (run history) init.

(** The entries of the listener table whose emitter is [e]. *)
Definition entries_of (e : Emitter) (st : State) : list (Emitter * string * Listener) :=
  filter (fun x => x.1.1 = e) (listeners st).

(** What [createChromiumSocket] registers on its request. *)
Definition request_listeners (req : CreateProxyRequest) (request : Handle)
  : list (Emitter * string * Listener) :=
  [ (ERequest request, "requestSocketConnected", on_requestSocketConnected req request);
    (ERequest request, "socketAuthRequired", on_socketAuthRequired);
    (ERequest request, "error", on_request_error req request);
    (ERequest request, "close", on_request_close req) ].

(** What [startProxyConnection] registers on its server. *)
Definition server_listeners (s : ServerId) : list (Emitter * string * Listener) :=
  [ (EServer s, "connection", connectionListener s);
    (EServer s, "listening", on_server_listening s);
    (EServer s, "close", on_server_close s);
    (EServer s, "error", on_server_error s) ].

(** Listeners that are registered on responses and connections. *)
Definition stream_listener (l : Listener) : bool :=
  match l with
  | on_response_error _ | on_response_data _ | on_conn_data _ | on_conn_close _
  | on_conn_end | on_conn_timeout | on_conn_error => true
  | _ => false
  end.

(** The listener table of every state the module can reach. *)
Record Inv (st : State) : Prop := {
  inv_request : forall h, (h < next_request st)%nat ->
    exists req, entries_of (ERequest h) st = request_listeners req h;
  inv_request_none : forall h, (next_request st <= h)%nat ->
    entries_of (ERequest h) st = [];
  inv_server : forall s, (s < length (servers st))%nat ->
    entries_of (EServer s) st = server_listeners s;
  inv_server_none : forall s, (length (servers st) <= s)%nat ->
    entries_of (EServer s) st = [];
  inv_response : forall r, Forall (fun x => stream_listener x.2 = true)
                                  (entries_of (EResponse r) st);
  inv_conn : forall c, Forall (fun x => stream_listener x.2 = true)
                              (entries_of (EConn c) st);
  inv_owner : Forall (fun srv => (pc_request (proxyCallback srv) < next_request st)%nat)
                     (servers st)
}.

(** [st'] continues [st]: listeners are only added, for new requests, new
    servers, responses and connections; servers keep their callback and
    response, and a server that has a client connection keeps it. *)
Definition new_entry (st : State) (x : Emitter * string * Listener) : Prop :=
  match x.1.1 with
  | ERequest h => (next_request st <= h)%nat
  | EServer s => (length (servers st) <= s)%nat
  | _ => True
  end.

Record extends (st st' : State) : Prop := {
  ext_requests : (next_request st <= next_request st')%nat;
  ext_servers_length : (length (servers st) <= length (servers st'))%nat;
  ext_listeners : exists added,
    listeners st' = listeners st ++ added /\ Forall (new_entry st) added;
  ext_servers : forall s srv, servers st !! s = Some srv ->
    exists srv', servers st' !! s = Some srv'
      /\ proxyCallback srv' = proxyCallback srv
      /\ response srv' = response srv
      /\ (forall c, clientConn srv = Some c -> clientConn srv' = Some c)
}.

(** Session [s] of request [request] is wired to response [r]: its server
    record and the listeners that [startProxyConnection] and the first
    accepted connection leave behind. *)
Record wired (st : State) (req : CreateProxyRequest) (request : Handle)
    (s : ServerId) (r : ResponseId) (client : option ConnId) : Prop := {
  wired_server : servers st !! s =
    Some {| proxyCallback := {| pc_req := req; pc_request := request |};
            response := r; clientConn := client |};
  wired_request : entries_of (ERequest request) st = request_listeners req request;
  wired_listeners : entries_of (EServer s) st = server_listeners s;
  wired_response : entries_of (EResponse r) st =
    (EResponse r, "error", on_response_error s) ::
    match client with
    | Some c => [(EResponse r, "data", on_response_data c)]
    | None => []
    end;
  wired_conn : forall c, client = Some c ->
    entries_of (EConn c) st =
      [ (EConn c, "data", on_conn_data s); (EConn c, "close", on_conn_close s);
        (EConn c, "end", on_conn_end); (EConn c, "timeout", on_conn_timeout);
        (EConn c, "error", on_conn_error) ]
}.

(** Invocations of the success callback of [request] in a trace. *)
Definition is_callback (request : Handle) (a : Action) : bool :=
  match a with
  | req_callback h _ => bool_decide (h = request)
  | _ => false
  end.

Definition callbacks (request : Handle) (t : list Action) : list Action :=
  List.filter (is_callback request) t.

(** Occurrences of [requestSocketConnected] on [request] and of ['listening']
    on server [s] among the inputs. *)
Definition is_connected (request : Handle) (i : Input) : bool :=
  match i with
  | host_emits (ERequest h) (ev_requestSocketConnected _) => bool_decide (h = request)
  | _ => false
  end.

Definition is_listening (s : ServerId) (i : Input) : bool :=
  match i with
  | host_emits (EServer s') (ev_listening _) => bool_decide (s' = s)
  | _ => false
  end.

Definition count_connected (request : Handle) (inputs : list Input) : nat :=
  length (List.filter (is_connected request) inputs).

Definition count_listening (s : ServerId) (inputs : list Input) : nat :=
  length (List.filter (is_listening s) inputs).

(** The request each server was started for, by server number. *)
Definition owners (st : State) : list Handle :=
  map (fun srv => pc_request (proxyCallback srv)) (servers st).

(** The success callback invoked by input [i] in state [st], if any. *)
Definition fired `{UrlModule} (request : Handle) (st : State) (i : Input) : list Action :=
  match i with
  | host_emits (EServer s) (ev_listening p) =>
      match servers st !! s with
      | Some srv =>
          if decide (pc_request (proxyCallback srv) = request)
          then [ req_callback request
                   {| success := true;
                      data := Some (p, formatUrl (parseUrl (url (pc_req (proxyCallback srv))))) |} ]
          else []
      | None => []
      end
  | _ => []
  end.

(** Whether input [i] is a ['listening'] event of a server of [request],
    the servers being numbered from [k] on in [ow]. *)
Definition hit (k : nat) (request : Handle) (ow : list Handle) (i : Input) : nat :=
  match i with
  | host_emits (EServer s) (ev_listening _) =>
      if decide ((k <= s)%nat /\ ow !! (s - k)%nat = Some request) then 1%nat else 0%nat
  | _ => 0%nat
  end.

(** The number of ['listening'] events among [inputs] that are addressed to
    servers of [request]. *)
Fixpoint weight_from (k : nat) (request : Handle) (ow : list Handle)
    (inputs : list Input) : nat :=
  match ow with
  | [] => 0%nat
  | o :: rest =>
      ((if decide (o = request) then count_listening k inputs else 0) +
       weight_from (S k) request rest inputs)%nat
  end.

(** The session of [request], created for [req]: its closures are in place
    and every server started for it carries [req]. *)
Record session (request : Handle) (req : CreateProxyRequest) (st : State) : Prop := {
  session_inv : Inv st;
  session_known : (request < next_request st)%nat;
  session_listeners : entries_of (ERequest request) st = request_listeners req request;
  session_servers : Forall (fun srv => pc_request (proxyCallback srv) = request ->
                                       pc_req (proxyCallback srv) = req) (servers st)
}.

(** Data arriving on either side of the relay, and what the relay does
    with it. *)
Inductive Direction := from_local | from_upstream.

Definition arrival (c : ConnId) (r : ResponseId) (x : Direction * Buffer) : Input :=
  match x.1 with
  | from_local => host_emits (EConn c) (ev_data x.2)
  | from_upstream => host_emits (EResponse r) (ev_data x.2)
  end.

Definition relayed (request : Handle) (c : ConnId) (x : Direction * Buffer) : list Action :=
  match x.1 with
  | from_local =>
      [ writeToLog (log_input_data (length x.2));
        writeToLog (log_output_chromium_data (length x.2));
        request_writeSocket request x.2 ]
  | from_upstream =>
      [ conn_write c x.2;
        writeToLog (log_input_chromium_data (length x.2));
        writeToLog (log_input_chromium_text x.2) ]
  end.

(** ** A sample request

    The statements below are also evaluated on this request, with Node's
    [url] module. *)

Local Open Scope nat_scope.

Definition sample_request : CreateProxyRequest :=
  {| url := "rtmp://host:443/stream"; errorCallback := true |}.

(** [createChromiumSocket], [requestSocketConnected] with response 7,
    ['listening'] on port 8000, and a first connection 3. *)
Definition sample_history : list Input :=
  [ call_createChromiumSocket sample_request;
    host_emits (ERequest 0) (ev_requestSocketConnected 7);
    host_emits (EServer 0) (ev_listening 8000%Z);
    host_emits (EServer 0) (ev_connection 3) ].

(** The sample request once its server listens, before any connection. *)
Definition sample_ready : list Input :=
  [ call_createChromiumSocket sample_request;
    host_emits (ERequest 0) (ev_requestSocketConnected 7);
    host_emits (EServer 0) (ev_listening 8000%Z) ].

Local Open Scope Z_scope.

(** ** More vocabulary *)

(** An input that neither creates a request nor closes one. *)
Definition quiet (i : Input) : bool :=
  match i with
  | call_createChromiumSocket _ => false
  | host_emits (ERequest _) (ev_close _) => false
  | _ => true
  end.

(** The payload of an action that writes bytes, upstream or to a
    connection. *)
Definition written (a : Action) : option Buffer :=
  match a with
  | request_writeSocket _ payload => Some payload
  | conn_write _ payload => Some payload
  | _ => None
  end.

(** The request for which [h] was created, read from the ['close'] listener
    that [createChromiumSocket] left on [h]. *)
Definition request_of (st : State) (h : Handle) : option CreateProxyRequest :=
  match subscribed (ERequest h) "close" st with
  | [on_request_close req] => Some req
  | _ => None
  end.

(** An input that is not a request for the URL ["__proto__"]. *)
Definition ordinary (i : Input) : bool :=
  match i with
  | call_createChromiumSocket req => negb (bool_decide (url req = "__proto__"))
  | _ => true
  end.

(** What a listener of a response or of a connection may do in answer to
    [sig]: log, close its server, destroy its connection, or write the
    payload that [sig] carries. *)
Definition stream_effect (sig : Signal) (a : Action) : Prop :=
  match a with
  | writeToLog _ | server_close _ | conn_destroy _ => True
  | conn_write _ payload | request_writeSocket _ payload => sig = ev_data payload
  | _ => False
  end.

(** The client connections of the servers started for response [r]. *)
Definition clients_of (r : ResponseId) (st : State) : list ConnId :=
  omap (fun srv => if decide (response srv = r) then clientConn srv else None) (servers st).

(** What a listener of a response does with a buffer. *)
Definition fed (payload : Buffer) (l : Listener) : list Action :=
  match l with
  | on_response_data conn =>
      [ conn_write conn payload;
        writeToLog (log_input_chromium_data (length payload));
        writeToLog (log_input_chromium_text payload) ]
  | _ => []
  end.

(** The listeners of the responses against the servers: a listener of
    ['data'] writes to a client connection of a server started for that
    response, and every such connection has its listener. *)
Record Fed (st : State) : Prop := {
  fed_listener : forall r event l, (EResponse r, event, l) ∈ listeners st ->
    (event = "error" /\ exists s, l = on_response_error s)
    \/ (event = "data" /\ exists c, l = on_response_data c /\ c ∈ clients_of r st);
  fed_client : forall r c, c ∈ clients_of r st ->
    (EResponse r, "data", on_response_data c) ∈ listeners st
}.

(** ** The connection manager module

    The module that stands between the runtime and the optional
    [runtime-p2p] package: it builds a manager that does nothing and
    replaces it by the manager of the package when the command line asks for
    it and the package can be loaded. *)

(** What a command line flag of [coreState.argo] can hold. *)
Inductive ArgValue :=
| arg_undefined
| arg_boolean (b : bool)
| arg_string (s : string)
| arg_number (n : Z)
| arg_object.       (* an array or an object *)

(** The truth value that an [if] gives to a flag. *)
Definition arg_truthy (v : ArgValue) : bool :=
  match v with
  | arg_undefined => false
  | arg_boolean b => b
  | arg_string s => nonempty s
  | arg_number n => negb (n =? 0)
  | arg_object => true
  end.

Definition multiRuntimeCommandLineFlag : string := "enable-multi-runtime".
Definition enableMeshCommandLineFlag : string := "enable-mesh".
Definition securityRealmFlag : string := "security-realm".

(** [coreState.argo[flag]] *)
Definition argo_get (argo : gmap string ArgValue) (flag : string) : ArgValue :=
  default arg_undefined (argo !! flag).

(** What [require('runtime-p2p').connectionManager] does: it throws an error
    with a message, as [require] does for a package that is missing or
    fails to load, or yields the member of the package, which may be
    missing.  A package that throws [null] or [undefined] makes the [catch]
    clause fail in turn, and the module is not loaded at all. *)
Inductive RequireResult :=
| require_throws (message : string)
| require_returns (exported : option nat).

(** The value of the variable [connectionManager]. *)
Inductive ConnectionManager :=
| cm_undefined
| cm_noop           (* the object built by [buildNoopConnectionManager] *)
| cm_p2p (exported : nat).

(** What a caller of a member of the manager gets: the promise of the
    do-nothing manager, which is rejected at once; a [TypeError], when the
    variable holds [undefined]; or whatever the package does. *)
Inductive CallOutcome :=
| rejected_promise
| throws_TypeError
| package_call (exported : nat).

(** [connectionManager.connectToRuntime(uuid, portInfo)] and
    [connectionManager.resolveIdentity(identity)]: the functions of the
    do-nothing manager ignore their arguments. *)
Definition connectToRuntime (cm : ConnectionManager) : CallOutcome :=
  match cm with
  | cm_noop => rejected_promise
  | cm_undefined => throws_TypeError
  | cm_p2p exported => package_call exported
  end.

Definition resolveIdentity (cm : ConnectionManager) : CallOutcome :=
  match cm with
  | cm_noop => rejected_promise
  | cm_undefined => throws_TypeError
  | cm_p2p exported => package_call exported
  end.

(** [connectionManager.connections], known for the do-nothing manager. *)
Definition connections (cm : ConnectionManager) : option (list nat) :=
  match cm with
  | cm_noop => Some []
  | _ => None
  end.

Record ManagerModule := {
  connectionManager : ConnectionManager;
  meshEnabled : bool
}.

Inductive ManagerAction :=
| require_runtime_p2p
| log_info (message : string).

Definition buildNoopConnectionManager (m : ManagerModule) : ManagerModule :=
  {| connectionManager := cm_noop; meshEnabled := meshEnabled m |}.

Definition startConnectionManager (p2p : RequireResult) (m : ManagerModule)
  : ManagerModule * list ManagerAction :=
  match p2p with
  | require_returns exported =>
      ({| connectionManager := match exported with
                               | Some cm => cm_p2p cm
                               | None => cm_undefined
                               end;
          meshEnabled := true |},
       [require_runtime_p2p; log_info "multi-runtime mode enabled"])
  | require_throws message => (m, [require_runtime_p2p; log_info message])
  end.

(** The body of the module, run when it is first imported; the result is
    what the module exports. *)
Definition load_connection_manager (argo : gmap string ArgValue) (p2p : RequireResult)
  : ManagerModule * list ManagerAction :=
  let multiRuntimeEnabled := argo_get argo multiRuntimeCommandLineFlag in
  let enableMesh := argo_get argo enableMeshCommandLineFlag in
  let securityRealm := argo_get argo securityRealmFlag in
  let m := buildNoopConnectionManager
             {| connectionManager := cm_undefined; meshEnabled := false |} in
  if arg_truthy multiRuntimeEnabled then
    if (negb (arg_truthy securityRealm) || arg_truthy enableMesh)%bool
    then startConnectionManager p2p m
    else (m, [])
  else (m, []).

(** * Proofs *)

Ltac munfold :=
  cbv [exec trace mbind M_bind bind mret M_ret ret act acts when on get_state
       set_requestMap set_clientConn new_request createServer with_server
       startProxyConnection call_proxyCallback run_listener
       createChromiumSocket authenticateChromiumSocket].

Ltac compute_subscribed :=
  match goal with
  | |- context [omap ?f ?l] =>
      let y := eval vm_compute in (omap f l) in change (omap f l) with y
  end.

Ltac filter_entries :=
  rewrite !filter_cons, filter_nil; cbn [fst snd];
  repeat case_decide; subst; try congruence; try reflexivity.

Tactic Notation "settle_step" uconstr(lem) :=
  cbn [settle step flat_map host_reaction app]; rewrite lem.

Section Proofs.
Context `{U : UrlModule}.

(** *** Sequencing *)

Lemma exec_bind {A B} (m : M A) (k : A -> M B) st :
  exec (m ≫= k) st = exec (k (m st).1.1) (m st).1.2.
Proof. munfold. destruct (m st) as [[a st1] t1]. cbn. destruct (k a st1) as [[b st2] t2]. reflexivity. Qed.

Lemma trace_bind {A B} (m : M A) (k : A -> M B) st :
  trace (m ≫= k) st = (m st).2 ++ trace (k (m st).1.1) (m st).1.2.
Proof. munfold. destruct (m st) as [[a st1] t1]. cbn. destruct (k a st1) as [[b st2] t2]. reflexivity. Qed.

Lemma exec_run_cons i rest st :
  exec (run (i :: rest)) st = exec (run rest) (exec (step i) st).
Proof. cbn [run]. rewrite exec_bind. reflexivity. Qed.

Lemma trace_run_cons i rest st :
  trace (run (i :: rest)) st = trace (step i) st ++ trace (run rest) (exec (step i) st).
Proof. cbn [run]. rewrite trace_bind. reflexivity. Qed.

Lemma exec_run_app a b st :
  exec (run (a ++ b)) st = exec (run b) (exec (run a) st).
Proof.
  revert st. induction a as [|i a IH]; intros st; [reflexivity|].
  rewrite <- app_comm_cons, !exec_run_cons. apply IH.
Qed.

Lemma trace_run_app a b st :
  trace (run (a ++ b)) st = trace (run a) st ++ trace (run b) (exec (run a) st).
Proof.
  revert st. induction a as [|i a IH]; intros st; [reflexivity|].
  rewrite <- app_comm_cons, !trace_run_cons, exec_run_cons, IH, app_assoc. reflexivity.
Qed.

Lemma exec_listeners_cons l ls sig st :
  exec (run_listeners (l :: ls) sig) st =
  exec (run_listeners ls sig) (exec (run_listener l sig) st).
Proof. cbn [run_listeners]. rewrite exec_bind. reflexivity. Qed.

Lemma trace_listeners_cons l ls sig st :
  trace (run_listeners (l :: ls) sig) st =
  trace (run_listener l sig) st ++ trace (run_listeners ls sig) (exec (run_listener l sig) st).
Proof. cbn [run_listeners]. rewrite trace_bind. reflexivity. Qed.

Lemma exec_emit e sig st :
  exec (emit e sig) st = exec (run_listeners (subscribed e (event_name sig) st) sig) st.
Proof. unfold emit. rewrite exec_bind. reflexivity. Qed.

Lemma trace_emit e sig st :
  trace (emit e sig) st = trace (run_listeners (subscribed e (event_name sig) st) sig) st.
Proof. unfold emit. rewrite trace_bind. reflexivity. Qed.

(** *** The state after each closure *)

Lemma run_listener_state l sig st :
  exec (run_listener l sig) st =
    match l, sig with
    | on_requestSocketConnected req h, ev_requestSocketConnected r =>
        started st {| pc_req := req; pc_request := h |} r
    | on_request_close req, ev_close _ => unregistered st (url req)
    | connectionListener s, ev_connection c =>
        match servers st !! s with
        | Some srv =>
            match clientConn srv with
            | None => accepted st s c (response srv)
            | Some _ => st
            end
        | None => st
        end
    | _, _ => st
    end.
Proof.
  destruct st as [m n srvs ls].
  destruct l, sig; munfold; cbn; try reflexivity.
  all: try (destruct (srvs !! s) as [srv|] eqn:E; [|reflexivity]).
  all: try (destruct event; reflexivity).
  all: try (destruct (clientConn srv); reflexivity).
  all: try (destruct (errorCallback req); reflexivity).
  - unfold started; cbn. rewrite <- !app_assoc. reflexivity.
  - destruct (clientConn srv); [reflexivity|].
    unfold accepted; cbn. rewrite <- !app_assoc. reflexivity.
Qed.

Lemma createChromiumSocket_state req st :
  exec (createChromiumSocket req) st = created st req.
Proof.
  destruct st as [m n srvs ls]. munfold. cbn.
  unfold created; cbn. rewrite <- !app_assoc. reflexivity.
Qed.

Lemma createChromiumSocket_trace req st :
  trace (createChromiumSocket req) st =
    (remap (parseUrl (url req)) (parseUrl (url req))).2 ++
    [ writeToLog (log_mapped_URL (transportUrl (url req)));
      net_request (next_request st) (transportUrl (url req)) true;
      request_createConnection (next_request st) ].
Proof. destruct st as [m n srvs ls]. munfold. cbn. reflexivity. Qed.

Lemma authenticateChromiumSocket_state req st :
  exec (authenticateChromiumSocket req) st = st.
Proof.
  munfold. destruct (js_get (requestMap st) (auth_url req)); reflexivity.
Qed.

(** *** The listener table *)

Lemma omap_cons_eq {A B} (f : A -> option B) x l :
  omap f (x :: l) = match f x with Some y => y :: omap f l | None => omap f l end.
Proof. reflexivity. Qed.

Lemma subscribed_entries e n st :
  subscribed e n st =
  omap (fun x => if bool_decide (x.1.2 = n) then Some x.2 else None) (entries_of e st).
Proof.
  unfold subscribed, entries_of. induction (listeners st) as [|[[e' n'] l] ls IH]; [reflexivity|].
  rewrite filter_cons, omap_cons_eq. cbn [fst snd]. rewrite IH.
  destruct (decide (e' = e)) as [->|Hne].
  - rewrite bool_decide_eq_true_2 by reflexivity. reflexivity.
  - rewrite (bool_decide_eq_false_2 _ Hne). reflexivity.
Qed.

Lemma entries_of_created e st req :
  entries_of e (created st req) =
  entries_of e st ++
    (if decide (e = ERequest (next_request st))
     then request_listeners req (next_request st) else []).
Proof.
  unfold entries_of, created; cbn [listeners]. rewrite filter_app. f_equal.
  filter_entries.
Qed.

Lemma entries_of_started e st pc r :
  entries_of e (started st pc r) =
  entries_of e st ++
    (if decide (e = EServer (length (servers st)))
     then server_listeners (length (servers st))
     else if decide (e = EResponse r)
          then [(EResponse r, "error", on_response_error (length (servers st)))]
          else []).
Proof.
  unfold entries_of, started; cbn [listeners]. rewrite filter_app. f_equal.
  filter_entries.
Qed.

Lemma entries_of_accepted e st s c r :
  entries_of e (accepted st s c r) =
  entries_of e st ++
    (if decide (e = EConn c)
     then [ (EConn c, "data", on_conn_data s); (EConn c, "close", on_conn_close s);
            (EConn c, "end", on_conn_end); (EConn c, "timeout", on_conn_timeout);
            (EConn c, "error", on_conn_error) ]
     else if decide (e = EResponse r)
          then [(EResponse r, "data", on_response_data c)]
          else []).
Proof.
  unfold entries_of, accepted; cbn [listeners]. rewrite filter_app. f_equal.
  filter_entries.
Qed.

Lemma entries_of_unregistered e st u :
  entries_of e (unregistered st u) = entries_of e st.
Proof. reflexivity. Qed.

(** *** The invariant *)

Lemma Inv_init : Inv init.
Proof.
  split; cbn; intros; try reflexivity; try lia; constructor.
Qed.

Lemma Inv_created st req : Inv st -> Inv (created st req).
Proof.
  intros I. split; intros; rewrite ?entries_of_created.
  - cbn [next_request created] in *.
    destruct (decide (ERequest h = ERequest (next_request st))) as [E|E].
    + injection E as ->. rewrite (inv_request_none _ I) by lia. eauto.
    + destruct (inv_request _ I h) as [req' Hr]; [|rewrite Hr, app_nil_r; eauto].
      assert (h <> next_request st) by congruence. lia.
  - cbn [next_request created] in *.
    rewrite decide_False by (intros [= ->]; lia).
    rewrite app_nil_r. apply (inv_request_none _ I). lia.
  - rewrite decide_False by discriminate. rewrite app_nil_r. apply (inv_server _ I). assumption.
  - rewrite decide_False by discriminate. rewrite app_nil_r. apply (inv_server_none _ I). assumption.
  - rewrite decide_False by discriminate. rewrite app_nil_r. apply (inv_response _ I).
  - rewrite decide_False by discriminate. rewrite app_nil_r. apply (inv_conn _ I).
  - cbn [servers next_request created]. eapply Forall_impl; [apply (inv_owner _ I)|].
    cbn. intros; lia.
Qed.

Lemma Inv_started st req h r :
  Inv st -> (h < next_request st)%nat ->
  Inv (started st {| pc_req := req; pc_request := h |} r).
Proof.
  intros I Hh. split; intros; rewrite ?entries_of_started.
  - rewrite !decide_False by discriminate. rewrite app_nil_r. apply (inv_request _ I). assumption.
  - rewrite !decide_False by discriminate. rewrite app_nil_r. apply (inv_request_none _ I). assumption.
  - cbn [servers started] in *. rewrite length_app in *. cbn [length] in *.
    destruct (decide (EServer s = EServer (length (servers st)))) as [E|E].
    + injection E as ->. rewrite (inv_server_none _ I) by lia. reflexivity.
    + rewrite decide_False by discriminate. rewrite app_nil_r. apply (inv_server _ I).
      assert (s <> length (servers st)) by congruence. lia.
  - cbn [servers started] in *. rewrite length_app in *. cbn [length] in *.
    rewrite decide_False by (intros [= ->]; lia).
    rewrite decide_False by discriminate. rewrite app_nil_r. apply (inv_server_none _ I). lia.
  - rewrite decide_False by discriminate. apply Forall_app. split; [apply (inv_response _ I)|].
    case_decide; repeat constructor.
  - rewrite !decide_False by discriminate. rewrite app_nil_r. apply (inv_conn _ I).
  - cbn [servers next_request started]. apply Forall_app. split; [apply (inv_owner _ I)|].
    repeat constructor. assumption.
Qed.

Lemma Inv_accepted st s c r : Inv st -> Inv (accepted st s c r).
Proof.
  intros I. split; intros; rewrite ?entries_of_accepted.
  - rewrite !decide_False by discriminate. rewrite app_nil_r. apply (inv_request _ I). assumption.
  - rewrite !decide_False by discriminate. rewrite app_nil_r. apply (inv_request_none _ I). assumption.
  - cbn [servers accepted] in *. rewrite length_alter in *.
    rewrite !decide_False by discriminate. rewrite app_nil_r. apply (inv_server _ I). assumption.
  - cbn [servers accepted] in *. rewrite length_alter in *.
    rewrite !decide_False by discriminate. rewrite app_nil_r. apply (inv_server_none _ I). assumption.
  - rewrite decide_False by discriminate. apply Forall_app. split; [apply (inv_response _ I)|].
    case_decide; repeat constructor.
  - apply Forall_app. split; [apply (inv_conn _ I)|].
    case_decide; [repeat constructor|]. rewrite decide_False by discriminate. constructor.
  - cbn [servers next_request accepted]. apply Forall_alter; [apply (inv_owner _ I)|].
    intros srv _ Hs. exact Hs.
Qed.

Lemma Inv_unregistered st u : Inv st -> Inv (unregistered st u).
Proof. intros I. destruct I. split; assumption. Qed.

(** *** Events of a request, of a server, of a stream *)

Lemma emit_eq e sig st :
  emit e sig st = run_listeners (subscribed e (event_name sig) st) sig st.
Proof.
  unfold emit. munfold. cbn.
  destruct (run_listeners _ sig st) as [[[] st'] t]. reflexivity.
Qed.

Lemma emit_request req h sig st :
  entries_of (ERequest h) st = request_listeners req h ->
  exec (emit (ERequest h) sig) st =
    match sig with
    | ev_requestSocketConnected r => started st {| pc_req := req; pc_request := h |} r
    | ev_close _ => unregistered st (url req)
    | _ => st
    end
  /\ trace (emit (ERequest h) sig) st =
    match sig with
    | ev_requestSocketConnected r =>
        [ writeToLog log_requestSocketConnected;
          nodeNet_createServer (length (servers st));
          server_maxConnections (length (servers st)) 1;
          server_listen (length (servers st)) 0 "localhost" ]
    | ev_socketAuthRequired event =>
        [ writeToLog (log_auth_requested (ev_url event));
          ofEvents_emit_system "proxy-socket-auth-requested"
            {| ev_url := ev_url event; isProxy := isProxy event |} ]
    | ev_error err =>
        [ writeToLog (log_request_error err); request_closeSocket h ] ++
        (if errorCallback req then [req_errorCallback h err] else [])
    | ev_close _ => [ writeToLog (log_request_closed (url req)) ]
    | _ => []
    end.
Proof.
  intros E. unfold exec, trace. rewrite emit_eq, subscribed_entries, E.
  destruct st as [m n srvs ls].
  destruct sig; compute_subscribed; cbn; munfold; cbn; rewrite <- ?app_assoc;
    try (split; reflexivity).
  destruct (errorCallback req); split; reflexivity.
Qed.

Lemma emit_server s srv sig st :
  entries_of (EServer s) st = server_listeners s ->
  servers st !! s = Some srv ->
  exec (emit (EServer s) sig) st =
    match sig, clientConn srv with
    | ev_connection c, None => accepted st s c (response srv)
    | _, _ => st
    end
  /\ trace (emit (EServer s) sig) st =
    match sig with
    | ev_connection c =>
        match clientConn srv with
        | None => [ writeToLog (log_new_connection c) ]
        | Some _ => [ writeToLog (log_duplicate_connection s); conn_end c ]
        end
    | ev_listening p =>
        [ writeToLog (log_server_info s);
          req_callback (pc_request (proxyCallback srv))
            {| success := true;
               data := Some (p, formatUrl (parseUrl (url (pc_req (proxyCallback srv))))) |} ]
    | ev_close _ =>
        [ writeToLog log_server_closed; writeToLog log_close_chromium_socket;
          request_closeSocket (pc_request (proxyCallback srv)) ]
    | ev_error err => [ writeToLog (log_server_error err); server_close s ]
    | _ => []
    end.
Proof.
  intros E Hs. unfold exec, trace. rewrite emit_eq, subscribed_entries, E.
  destruct st as [m n srvs ls]. cbn [servers] in Hs.
  destruct sig; compute_subscribed; cbn; munfold; cbn; rewrite ?Hs; cbn;
    try (split; reflexivity); try (destruct (clientConn srv); split; reflexivity).
  destruct (clientConn srv); cbn; [split; reflexivity|].
  unfold accepted; cbn. rewrite <- !app_assoc. split; reflexivity.
Qed.

Lemma emit_none e sig st :
  entries_of e st = [] -> emit e sig st = (tt, st, []).
Proof.
  intros E. rewrite emit_eq, subscribed_entries, E. reflexivity.
Qed.

Lemma run_listener_stream l sig st :
  stream_listener l = true -> exec (run_listener l sig) st = st.
Proof.
  intros Hl. rewrite run_listener_state. destruct l; try discriminate; destruct sig; reflexivity.
Qed.

Lemma run_listeners_stream ls sig st :
  Forall (fun l => stream_listener l = true) ls ->
  exec (run_listeners ls sig) st = st.
Proof.
  induction 1 as [|l ls Hl _ IH]; [reflexivity|].
  rewrite exec_listeners_cons, run_listener_stream by assumption. exact IH.
Qed.

Lemma subscribed_stream e n st :
  Forall (fun x => stream_listener x.2 = true) (entries_of e st) ->
  Forall (fun l => stream_listener l = true) (subscribed e n st).
Proof.
  rewrite subscribed_entries. induction 1 as [|x xs Hx _ IH]; [constructor|].
  rewrite omap_cons_eq. case_bool_decide; [constructor|]; assumption.
Qed.

Lemma emit_stream e sig st :
  Forall (fun x => stream_listener x.2 = true) (entries_of e st) ->
  exec (emit e sig) st = st.
Proof.
  intros F. rewrite exec_emit. apply run_listeners_stream, subscribed_stream, F.
Qed.

(** *** Every step keeps the invariant *)

Lemma Inv_emit e sig st : Inv st -> Inv (exec (emit e sig) st).
Proof.
  intros I. destruct e as [h|r|s|c].
  - destruct (decide (h < next_request st)%nat) as [Hh|Hh].
    + destruct (inv_request _ I h Hh) as [req E].
      destruct (emit_request req h sig st E) as [-> _].
      destruct sig; auto using Inv_started, Inv_unregistered.
    + unfold exec. rewrite emit_none; [exact I|]. apply (inv_request_none _ I). lia.
  - rewrite emit_stream; [exact I|]. apply (inv_response _ I).
  - destruct (decide (s < length (servers st))%nat) as [Hs|Hs].
    + destruct (lookup_lt_is_Some_2 _ _ Hs) as [srv Hsrv].
      destruct (emit_server s srv sig st (inv_server _ I s Hs) Hsrv) as [-> _].
      destruct sig, (clientConn srv); auto using Inv_accepted.
    + unfold exec. rewrite emit_none; [exact I|]. apply (inv_server_none _ I). lia.
  - rewrite emit_stream; [exact I|]. apply (inv_conn _ I).
Qed.

Lemma Inv_step i st : Inv st -> Inv (exec (step i) st).
Proof.
  intros I. destruct i as [req|req|e sig]; cbn [step].
  - rewrite createChromiumSocket_state. apply Inv_created, I.
  - rewrite authenticateChromiumSocket_state. exact I.
  - apply Inv_emit, I.
Qed.

Lemma Inv_run inputs st : Inv st -> Inv (exec (run inputs) st).
Proof.
  revert st. induction inputs as [|i rest IH]; intros st I; [exact I|].
  rewrite exec_run_cons. apply IH, Inv_step, I.
Qed.

Lemma Inv_after history : Inv (after history).
Proof. apply Inv_run, Inv_init. Qed.

(** *** States only grow *)

Lemma extends_refl st : extends st st.
Proof.
  split; [lia | lia | exists []; rewrite app_nil_r; split; [reflexivity|constructor] |].
  intros s srv Hs. exists srv. auto.
Qed.

Lemma new_entry_mono st st' x :
  (next_request st <= next_request st')%nat ->
  (length (servers st) <= length (servers st'))%nat ->
  new_entry st' x -> new_entry st x.
Proof. unfold new_entry. destruct (x.1.1); intros; lia || exact I. Qed.

Lemma extends_trans st1 st2 st3 : extends st1 st2 -> extends st2 st3 -> extends st1 st3.
Proof.
  intros [R1 L1 (a1 & E1 & F1) S1] [R2 L2 (a2 & E2 & F2) S2]. split; [lia | lia | |].
  - exists (a1 ++ a2). rewrite E2, E1, app_assoc. split; [reflexivity|].
    apply Forall_app. split; [exact F1|].
    eapply Forall_impl; [exact F2|]. intros x. apply new_entry_mono; assumption.
  - intros s srv Hs. destruct (S1 s srv Hs) as (srv1 & H1 & P1 & Q1 & C1).
    destruct (S2 s srv1 H1) as (srv2 & H2 & P2 & Q2 & C2).
    exists srv2. repeat split; [exact H2 | congruence | congruence | auto].
Qed.

Lemma extends_created st req : extends st (created st req).
Proof.
  split; cbn; [lia | lia | | intros s srv Hs; exists srv; auto].
  eexists. split; [reflexivity|]. repeat constructor; unfold new_entry; cbn; lia.
Qed.

Lemma extends_started st pc r : extends st (started st pc r).
Proof.
  split; cbn [servers started next_request listeners]; [lia | rewrite length_app; lia | |].
  - eexists. split; [reflexivity|]. repeat constructor; unfold new_entry; cbn; lia.
  - intros s srv Hs. exists srv. rewrite lookup_app_l by (eapply lookup_lt_Some, Hs). auto.
Qed.

Lemma extends_accepted st s srv c :
  servers st !! s = Some srv -> clientConn srv = None ->
  extends st (accepted st s c (response srv)).
Proof.
  intros Hs Hc. split; cbn [servers accepted next_request listeners];
    [lia | rewrite length_alter; lia | |].
  - eexists. split; [reflexivity|]. repeat constructor.
  - intros s' srv' Hs'. destruct (decide (s' = s)) as [Heq|Hne].
    + subst s'. pose proof (eq_trans (eq_sym Hs) Hs') as [= <-].
      rewrite list_lookup_alter_eq, Hs'. cbn. eexists. split; [reflexivity|].
      cbn. repeat split. congruence.
    + rewrite list_lookup_alter_ne by congruence. exists srv'. auto.
Qed.

Lemma extends_unregistered st u : extends st (unregistered st u).
Proof.
  split; cbn; [lia | lia | exists []; rewrite app_nil_r; split; [reflexivity|constructor] |].
  intros s srv Hs. exists srv. auto.
Qed.

Lemma emit_extends e sig st : Inv st -> extends st (exec (emit e sig) st).
Proof.
  intros I. destruct e as [h|r|s|c].
  - destruct (decide (h < next_request st)%nat) as [Hh|Hh].
    + destruct (inv_request _ I h Hh) as [req E].
      destruct (emit_request req h sig st E) as [-> _].
      destruct sig; auto using extends_refl, extends_started, extends_unregistered.
    + unfold exec. rewrite emit_none; [apply extends_refl|]. apply (inv_request_none _ I). lia.
  - rewrite emit_stream; [apply extends_refl|]. apply (inv_response _ I).
  - destruct (decide (s < length (servers st))%nat) as [Hs|Hs].
    + destruct (lookup_lt_is_Some_2 _ _ Hs) as [srv Hsrv].
      destruct (emit_server s srv sig st (inv_server _ I s Hs) Hsrv) as [-> _].
      destruct sig, (clientConn srv) eqn:Hc; eauto using extends_refl, extends_accepted.
    + unfold exec. rewrite emit_none; [apply extends_refl|]. apply (inv_server_none _ I). lia.
  - rewrite emit_stream; [apply extends_refl|]. apply (inv_conn _ I).
Qed.

Lemma step_extends i st : Inv st -> extends st (exec (step i) st).
Proof.
  intros I. destruct i as [req|req|e sig]; cbn [step].
  - rewrite createChromiumSocket_state. apply extends_created.
  - rewrite authenticateChromiumSocket_state. apply extends_refl.
  - apply emit_extends, I.
Qed.

Lemma run_extends inputs st : Inv st -> extends st (exec (run inputs) st).
Proof.
  revert st. induction inputs as [|i rest IH]; intros st I; [apply extends_refl|].
  rewrite exec_run_cons. eapply extends_trans; [apply step_extends, I|].
  apply IH, Inv_step, I.
Qed.

Lemma extends_entries_request st st' h :
  extends st st' -> (h < next_request st)%nat ->
  entries_of (ERequest h) st' = entries_of (ERequest h) st.
Proof.
  intros [_ _ (added & E & F) _] Hh. unfold entries_of. rewrite E, filter_app.
  assert (filter (fun x => x.1.1 = ERequest h) added = []) as ->; [|apply app_nil_r].
  clear E. induction F as [|x xs Hx _ IH]; [reflexivity|].
  rewrite filter_cons, IH. rewrite decide_False; [reflexivity|].
  intros Hxe. unfold new_entry in Hx. rewrite Hxe in Hx. lia.
Qed.

Lemma extends_entries_server st st' s :
  extends st st' -> (s < length (servers st))%nat ->
  entries_of (EServer s) st' = entries_of (EServer s) st.
Proof.
  intros [_ _ (added & E & F) _] Hh. unfold entries_of. rewrite E, filter_app.
  assert (filter (fun x => x.1.1 = EServer s) added = []) as ->; [|apply app_nil_r].
  clear E. induction F as [|x xs Hx _ IH]; [reflexivity|].
  rewrite filter_cons, IH. rewrite decide_False; [reflexivity|].
  intros Hxe. unfold new_entry in Hx. rewrite Hxe in Hx. lia.
Qed.

(** *** Where the success callback is invoked *)

Lemma remap_logs u m a : In a (remap u m).2 -> exists e, a = writeToLog e.
Proof.
  unfold remap. destruct (protocol u ≫= _) as [rp|]; [|intros []].
  destruct (truthy (chromiumProtocol rp)); [|intros []].
  destruct (_ && _)%bool; [|intros []].
  intros [<-|[]]. eauto.
Qed.

Lemma callbacks_app h t1 t2 : callbacks h (t1 ++ t2) = callbacks h t1 ++ callbacks h t2.
Proof. apply List.filter_app. Qed.

Lemma callbacks_logs h t :
  (forall a, In a t -> exists e, a = writeToLog e) -> callbacks h t = [].
Proof.
  induction t as [|a t IH]; intros Ht; [reflexivity|].
  destruct (Ht a (or_introl eq_refl)) as [e ->]. cbn. apply IH.
  intros b Hb. apply Ht. right. exact Hb.
Qed.

Lemma run_listener_stream_callbacks h l sig st :
  stream_listener l = true -> callbacks h (trace (run_listener l sig) st) = [].
Proof.
  intros Hl. destruct l; try discriminate; destruct sig; munfold; cbn; try reflexivity.
  all: destruct (servers st !! s) as [srv|]; cbn; try reflexivity.
  destruct (clientConn srv); reflexivity.
Qed.

Lemma run_listeners_stream_callbacks h ls sig st :
  Forall (fun l => stream_listener l = true) ls ->
  callbacks h (trace (run_listeners ls sig) st) = [].
Proof.
  induction 1 as [|l ls Hl Hls IH]; [reflexivity|].
  rewrite trace_listeners_cons, callbacks_app, run_listener_stream_callbacks by assumption.
  rewrite run_listener_stream by assumption. exact IH.
Qed.

Lemma step_callbacks h i st :
  Inv st -> callbacks h (trace (step i) st) = fired h st i.
Proof.
  intros I. destruct i as [req|req|e sig]; cbn [step fired].
  - rewrite createChromiumSocket_trace, callbacks_app.
    rewrite callbacks_logs by apply remap_logs. reflexivity.
  - unfold authenticateChromiumSocket. munfold.
    destruct (js_get _ _); reflexivity.
  - destruct e as [h'|r|s|c].
    + destruct (decide (h' < next_request st)%nat) as [Hh|Hh].
      * destruct (inv_request _ I h' Hh) as [req E].
        destruct (emit_request req h' sig st E) as [_ ->].
        destruct sig; try reflexivity. destruct (errorCallback req); reflexivity.
      * unfold trace. rewrite emit_none; [reflexivity|]. apply (inv_request_none _ I). lia.
    + rewrite trace_emit.
      apply run_listeners_stream_callbacks, subscribed_stream, (inv_response _ I).
    + destruct (decide (s < length (servers st))%nat) as [Hs|Hs].
      * destruct (lookup_lt_is_Some_2 _ _ Hs) as [srv Hsrv].
        destruct (emit_server s srv sig st (inv_server _ I s Hs) Hsrv) as [_ ->].
        destruct sig; try reflexivity.
        -- destruct (clientConn srv); reflexivity.
        -- cbn [fired]. rewrite Hsrv. cbn. case_decide as Hd.
           ++ rewrite Hd, bool_decide_eq_true_2 by reflexivity. reflexivity.
           ++ rewrite bool_decide_eq_false_2 by assumption. reflexivity.
      * unfold trace. rewrite emit_none by (apply (inv_server_none _ I); lia).
        destruct sig; try reflexivity.
        cbn [fired]. rewrite lookup_ge_None_2 by lia. reflexivity.
    + rewrite trace_emit.
      apply run_listeners_stream_callbacks, subscribed_stream, (inv_conn _ I).
Qed.

(** *** Which request each server belongs to *)

Lemma step_owners i st :
  Inv st ->
  owners (exec (step i) st) =
  owners st ++
    match i with
    | host_emits (ERequest h) (ev_requestSocketConnected _) =>
        if decide (h < next_request st)%nat then [h] else []
    | _ => []
    end.
Proof.
  intros I. destruct i as [req|req|e sig]; cbn [step].
  - rewrite createChromiumSocket_state, app_nil_r. reflexivity.
  - rewrite authenticateChromiumSocket_state, app_nil_r. reflexivity.
  - destruct e as [h'|r|s|c].
    + destruct (decide (h' < next_request st)%nat) as [Hh|Hh].
      * destruct (inv_request _ I h' Hh) as [req E].
        destruct (emit_request req h' sig st E) as [-> _].
        destruct sig; rewrite ?app_nil_r; try reflexivity.
        unfold owners, started; cbn. rewrite map_app. reflexivity.
      * unfold exec. rewrite emit_none by (apply (inv_request_none _ I); lia).
        destruct sig; rewrite ?app_nil_r; reflexivity.
    + rewrite emit_stream by apply (inv_response _ I). rewrite app_nil_r. reflexivity.
    + rewrite app_nil_r. destruct (decide (s < length (servers st))%nat) as [Hs|Hs].
      * destruct (lookup_lt_is_Some_2 _ _ Hs) as [srv Hsrv].
        destruct (emit_server s srv sig st (inv_server _ I s Hs) Hsrv) as [-> _].
        destruct sig, (clientConn srv); try reflexivity.
        unfold owners, accepted; cbn. apply list_eq. intros j.
        rewrite !list_lookup_fmap. destruct (decide (j = s)) as [->|Hne].
        -- rewrite list_lookup_alter_eq. destruct (servers st !! s); reflexivity.
        -- rewrite list_lookup_alter_ne by congruence. reflexivity.
      * unfold exec. rewrite emit_none by (apply (inv_server_none _ I); lia). reflexivity.
    + rewrite emit_stream by apply (inv_conn _ I). rewrite app_nil_r. reflexivity.
Qed.

(** *** Counting *)

Lemma count_listening_cons s i rest :
  count_listening s (i :: rest) =
  ((if is_listening s i then 1 else 0) + count_listening s rest)%nat.
Proof. unfold count_listening. cbn. destruct (is_listening s i); reflexivity. Qed.

Lemma count_connected_cons h i rest :
  count_connected h (i :: rest) =
  ((if is_connected h i then 1 else 0) + count_connected h rest)%nat.
Proof. unfold count_connected. cbn. destruct (is_connected h i); reflexivity. Qed.

Lemma decide_iff_nat (P Q : Prop) `{Decision P, Decision Q} :
  (P <-> Q) -> (if decide P then 1 else 0)%nat = (if decide Q then 1 else 0)%nat.
Proof. intros [? ?]. do 2 case_decide; tauto || reflexivity. Qed.

Lemma hit_cons k h o ow i :
  hit k h (o :: ow) i =
  ((if decide (o = h) then if is_listening k i then 1 else 0 else 0) +
   hit (S k) h ow i)%nat.
Proof.
  destruct i as [| |[] []]; cbn [hit is_listening]; try (case_decide; reflexivity).
  destruct (decide (s = k)) as [->|Hne].
  - rewrite Nat.sub_diag. cbn [lookup list_lookup].
    rewrite bool_decide_eq_true_2 by reflexivity.
    rewrite (decide_False (P := (S k <= k)%nat /\ _)) by lia.
    rewrite Nat.add_0_r.
    transitivity (if decide (o = h) then 1 else 0)%nat; [|case_decide; reflexivity].
    apply decide_iff_nat. split; [intros [_ [= ->]]; reflexivity | intros ->; split; [lia|reflexivity]].
  - rewrite bool_decide_eq_false_2 by assumption.
    transitivity (if decide ((S k <= s)%nat /\ ow !! (s - S k)%nat = Some h) then 1 else 0)%nat;
      [|destruct (decide (o = h)); reflexivity].
    apply decide_iff_nat. split.
    + intros [Hk Hl]. assert (S k <= s)%nat by lia. split; [assumption|].
      replace (s - k)%nat with (S (s - S k)) in Hl by lia. exact Hl.
    + intros [Hk Hl]. split; [lia|].
      replace (s - k)%nat with (S (s - S k)) by lia. exact Hl.
Qed.

Lemma weight_cons h i rest ow k :
  weight_from k h ow (i :: rest) = (hit k h ow i + weight_from k h ow rest)%nat.
Proof.
  revert k. induction ow as [|o ow IH]; intros k.
  - cbn [weight_from]. destruct i as [| |[] []]; cbn [hit]; try reflexivity.
    rewrite decide_False; [reflexivity|]. intros [_ Hd]. discriminate.
  - cbn [weight_from]. rewrite IH, count_listening_cons, hit_cons. case_decide; lia.
Qed.

Lemma weight_snoc h o inputs ow k :
  weight_from k h (ow ++ [o]) inputs =
  (weight_from k h ow inputs +
   if decide (o = h) then count_listening (k + length ow) inputs else 0)%nat.
Proof.
  revert k. induction ow as [|o' ow IH]; intros k; cbn [weight_from app length].
  - rewrite !Nat.add_0_r. destruct (decide (o = h)); reflexivity.
  - rewrite IH. replace (S k + length ow)%nat with (k + S (length ow))%nat by lia.
    destruct (decide (o = h)), (decide (o' = h)); lia.
Qed.

Lemma weight_absent h inputs ow k : h ∉ ow -> weight_from k h ow inputs = 0%nat.
Proof.
  revert k. induction ow as [|o ow IH]; intros k Hn; [reflexivity|].
  apply not_elem_of_cons in Hn as [Hne Hn].
  cbn [weight_from]. rewrite IH by exact Hn. rewrite decide_False by congruence. reflexivity.
Qed.

Lemma fired_hit h st i : length (fired h st i) = hit 0 h (owners st) i.
Proof.
  destruct i as [| |[] []]; try reflexivity. cbn [fired hit].
  unfold owners. rewrite Nat.sub_0_r, list_lookup_fmap.
  destruct (servers st !! s) as [srv|]; cbn.
  - destruct (decide (pc_request (proxyCallback srv) = h)) as [Heq|Hne].
    + rewrite decide_True; [reflexivity|]. split; [lia|congruence].
    + rewrite decide_False; [reflexivity|]. intros [_ [= Heq]]. exact (Hne Heq).
  - rewrite decide_False; [reflexivity|]. intros [_ [=]].
Qed.

Lemma callbacks_bounded h inputs st :
  Inv st -> (forall s, count_listening s inputs <= 1)%nat ->
  (length (callbacks h (trace (run inputs) st)) <=
   weight_from 0 h (owners st) inputs + count_connected h inputs)%nat.
Proof.
  revert st. induction inputs as [|i rest IH]; intros st I Hl; [cbn; lia|].
  rewrite trace_run_cons, callbacks_app, length_app, step_callbacks, fired_hit by assumption.
  assert (forall s, count_listening s rest <= 1)%nat as Hl'.
  { intros s. specialize (Hl s). rewrite count_listening_cons in Hl. lia. }
  specialize (IH (exec (step i) st) (Inv_step i st I) Hl').
  rewrite weight_cons, count_connected_cons.
  rewrite step_owners in IH by assumption.
  destruct i as [| |[h'| | |] []]; rewrite ?app_nil_r in IH; cbn [is_connected]; try lia.
  case_decide; rewrite ?app_nil_r in IH; [|lia].
  rewrite weight_snoc in IH. case_decide as Hd.
  - subst h'. rewrite bool_decide_eq_true_2 by reflexivity.
    specialize (Hl' (0 + length (owners st))%nat). lia.
  - lia.
Qed.

Lemma no_connection_no_callback h inputs st :
  Inv st -> h ∉ owners st -> count_connected h inputs = 0%nat ->
  callbacks h (trace (run inputs) st) = [].
Proof.
  revert st. induction inputs as [|i rest IH]; intros st I Hn Hc; [reflexivity|].
  rewrite count_connected_cons in Hc.
  rewrite trace_run_cons, callbacks_app, step_callbacks by assumption.
  rewrite IH; [| apply Inv_step, I | | lia].
  - rewrite app_nil_r. apply length_zero_iff_nil. rewrite fired_hit.
    destruct i as [| |[] []]; try reflexivity. cbn [hit]. apply decide_False.
    intros [_ Hs]. apply Hn. eapply list_elem_of_lookup_2, Hs.
  - rewrite step_owners by assumption.
    destruct i as [| |[h'| | |] []]; rewrite ?app_nil_r; try assumption.
    case_decide; rewrite ?app_nil_r; [|assumption].
    cbn [is_connected] in Hc. case_bool_decide as Hd; [lia|].
    intros Hin. apply elem_of_app in Hin as [Hin|Hin]; [exact (Hn Hin)|].
    apply list_elem_of_singleton in Hin. congruence.
Qed.

(** *** A session, from its creation on *)

Lemma session_created st req : Inv st -> session (next_request st) req (created st req).
Proof.
  intros I. split.
  - apply Inv_created, I.
  - cbn. lia.
  - rewrite entries_of_created, decide_True by reflexivity.
    rewrite (inv_request_none _ I) by lia. reflexivity.
  - cbn [servers created]. eapply Forall_impl; [apply (inv_owner _ I)|].
    cbn. intros srv Hlt Heq. lia.
Qed.

Lemma request_listeners_inj req req' h :
  request_listeners req' h = request_listeners req h -> req' = req.
Proof. intros [= ->]. reflexivity. Qed.

Lemma session_step h req i st : session h req st -> session h req (exec (step i) st).
Proof.
  intros [I K L S]. pose proof (step_extends i st I) as X. split.
  - apply Inv_step, I.
  - pose proof (ext_requests _ _ X). lia.
  - rewrite (extends_entries_request _ _ _ X K). exact L.
  - destruct i as [req0|req0|e sig]; cbn [step].
    + rewrite createChromiumSocket_state. exact S.
    + rewrite authenticateChromiumSocket_state. exact S.
    + destruct e as [h'|r|s|c].
      * destruct (decide (h' < next_request st)%nat) as [Hh|Hh].
        -- destruct (inv_request _ I h' Hh) as [req' E].
           destruct (emit_request req' h' sig st E) as [-> _].
           destruct sig; try exact S.
           cbn [servers started]. apply Forall_app. split; [exact S|].
           repeat constructor. cbn. intros ->.
           apply (request_listeners_inj _ _ h). congruence.
        -- unfold exec. rewrite emit_none; [exact S|]. apply (inv_request_none _ I). lia.
      * rewrite emit_stream; [exact S|]. apply (inv_response _ I).
      * destruct (decide (s < length (servers st))%nat) as [Hs|Hs].
        -- destruct (lookup_lt_is_Some_2 _ _ Hs) as [srv Hsrv].
           destruct (emit_server s srv sig st (inv_server _ I s Hs) Hsrv) as [-> _].
           destruct sig, (clientConn srv); try exact S.
           cbn [servers accepted]. apply Forall_alter; [exact S|].
           intros srv' _ Hp. exact Hp.
        -- unfold exec. rewrite emit_none; [exact S|]. apply (inv_server_none _ I). lia.
      * rewrite emit_stream; [exact S|]. apply (inv_conn _ I).
Qed.

Lemma session_run h req inputs st : session h req st -> session h req (exec (run inputs) st).
Proof.
  revert st. induction inputs as [|i rest IH]; intros st S; [exact S|].
  rewrite exec_run_cons. apply IH, session_step, S.
Qed.

Lemma callbacks_In h a t : In a (callbacks h t) <-> In a t /\ is_callback h a = true.
Proof. apply List.filter_In. Qed.

Lemma callback_payload h req inputs st result :
  session h req st ->
  In (req_callback h result) (trace (run inputs) st) ->
  exists p s srv,
    In (host_emits (EServer s) (ev_listening p)) inputs
    /\ servers (exec (run inputs) st) !! s = Some srv
    /\ pc_request (proxyCallback srv) = h
    /\ result = {| success := true;
                   data := Some (p, formatUrl (parseUrl (url req))) |}.
Proof.
  revert st. induction inputs as [|i rest IH]; intros st S; [intros []|].
  rewrite trace_run_cons, in_app_iff. intros [Hi|Hi].
  - assert (In (req_callback h result) (fired h st i)) as Hf.
    { rewrite <- (step_callbacks h i st (session_inv _ _ _ S)).
      apply callbacks_In. split; [exact Hi|]. cbn. apply bool_decide_eq_true_2. reflexivity. }
    destruct i as [| |[| |s|] []]; try destruct Hf. cbn [fired] in Hf.
    destruct (servers st !! s) as [srv|] eqn:Hsrv; [|destruct Hf].
    case_decide as Hd; [|destruct Hf]. destruct Hf as [[= <-]|[]].
    destruct (ext_servers _ _ (run_extends (host_emits (EServer s) (ev_listening address_port) :: rest)
                                 st (session_inv _ _ _ S)) s srv Hsrv)
      as (srv' & Hs' & Hp & _).
    exists address_port, s, srv'. split; [left; reflexivity|]. split; [exact Hs'|].
    split; [congruence|].
    pose proof (session_servers _ _ _ S) as F. rewrite Forall_lookup in F.
    rewrite (F s srv Hsrv Hd). reflexivity.
  - rewrite exec_run_cons.
    destruct (IH _ (session_step h req i st S) Hi) as (p & s & srv & Hin & Hs & Hp & Hr).
    exists p, s, srv. split; [right; exact Hin|]. auto.
Qed.

(** *** Events of the streams of a wired session *)

Lemma M_eta (m : M unit) st : m st = (tt, exec m st, trace m st).
Proof. unfold exec, trace. destruct (m st) as [[[] st'] t]. reflexivity. Qed.

Lemma emit_conn st req h s r c sig :
  wired st req h s r (Some c) ->
  emit (EConn c) sig st =
    (tt, st,
     match sig with
     | ev_data payload =>
         [ writeToLog (log_input_data (length payload));
           writeToLog (log_output_chromium_data (length payload));
           request_writeSocket h payload ]
     | ev_close hadError => [ writeToLog (log_socket_closed hadError); server_close s ]
     | ev_end => [ writeToLog log_socket_ended ]
     | ev_timeout => [ writeToLog log_socket_timeout ]
     | ev_error err => [ writeToLog (log_connect_error err) ]
     | _ => []
     end).
Proof.
  intros W. rewrite emit_eq, subscribed_entries, (wired_conn _ _ _ _ _ _ W c eq_refl).
  pose proof (wired_server _ _ _ _ _ _ W) as Hs.
  destruct st as [m n srvs ls]. cbn [servers] in Hs.
  destruct sig; compute_subscribed; cbn; munfold; cbn; rewrite ?Hs; reflexivity.
Qed.

Lemma emit_response st req h s r client sig :
  wired st req h s r client ->
  emit (EResponse r) sig st =
    (tt, st,
     match sig with
     | ev_error err =>
         [ writeToLog (log_response_error err);
           match client with
           | Some c => conn_destroy c
           | None => server_close s
           end ]
     | ev_data payload =>
         match client with
         | Some c =>
             [ conn_write c payload;
               writeToLog (log_input_chromium_data (length payload));
               writeToLog (log_input_chromium_text payload) ]
         | None => []
         end
     | _ => []
     end).
Proof.
  intros W. rewrite emit_eq, subscribed_entries, (wired_response _ _ _ _ _ _ W).
  pose proof (wired_server _ _ _ _ _ _ W) as Hs.
  destruct st as [m n srvs ls]. cbn [servers] in Hs.
  destruct client as [c|], sig; compute_subscribed; cbn; munfold; cbn; rewrite ?Hs; reflexivity.
Qed.

Lemma wired_unregistered st req h s r client u :
  wired st req h s r client -> wired (unregistered st u) req h s r client.
Proof. intros [? ? ? ? ?]. split; assumption. Qed.

Lemma run_cons_eq i rest st st1 t1 st2 t2 :
  step i st = (tt, st1, t1) -> run rest st1 = (tt, st2, t2) ->
  run (i :: rest) st = (tt, st2, t1 ++ t2).
Proof. intros H1 H2. cbn [run]. munfold. rewrite H1, H2. reflexivity. Qed.

(** ** The protocol remapping *)

Lemma ProtocolMap_keys p rp :
  ProtocolMap !! p = Some rp -> p ∈ ["rtmp:"; "rtmps:"; "http:"; "https:"].
Proof.
  intros Hp. apply elem_of_list_to_map_2 in Hp.
  repeat (apply elem_of_cons in Hp as [[= -> _]|Hp];
          [apply (bool_decide_unpack _); vm_compute; exact I|]).
  inversion Hp.
Qed.

Lemma remap_unchanged u m :
  ((protocol u ∉ [Some "rtmp:"; Some "rtmps:"; Some "http:"; Some "https:"])
   \/ exists p rp, protocol u = Some p /\ ProtocolMap !! p = Some rp
                   /\ chromiumProtocol rp = None) ->
  remap u m = (m, []).
Proof.
  unfold remap. intros [Hn|(p & rp & -> & Hp & Hc)].
  - destruct (protocol u) as [p|]; [|reflexivity]. cbn [mbind option_bind].
    destruct (ProtocolMap !! p) as [rp|] eqn:Hp; [|reflexivity].
    exfalso. apply Hn. apply ProtocolMap_keys in Hp.
    apply (list_elem_of_fmap_2 Some) in Hp. exact Hp.
  - cbn [mbind option_bind]. rewrite Hp, Hc. reflexivity.
Qed.

Lemma remap_secure_port u m :
  protocol u = Some "rtmp:" -> port u = Some "443" ->
  protocol (remap u m).1 = Some "https:".
Proof. unfold remap. intros -> ->. reflexivity. Qed.

Lemma remap_http u m : protocol u = Some "http:" -> remap u m = (m, []).
Proof. unfold remap. intros ->. reflexivity. Qed.

(** C1: for a URL on port 443 whose scheme has a secure variant in the
    table, the transport scheme of the secure variant is used exactly when
    the entry of the scheme itself has a [chromiumProtocol].  That is the
    case of [rtmp:], which is sent to [https:].  The entry of [http:] has
    none: the test of the port lies inside the guard of line 74, is not
    reached, and the URL keeps its protocol. *)
Theorem secure_variant_only_behind_chromiumProtocol (s p sp : string) (rp : RequestProtocol) :
  let u := parseUrl s in
  protocol u = Some p -> ProtocolMap !! p = Some rp -> secureProtocol rp = Some sp ->
  port u = Some "443" ->
  if truthy (chromiumProtocol rp)
  then p = "rtmp:" /\ sp = "rtmps:"
       /\ protocol (remap u u).1 = (ProtocolMap !! sp) ≫= chromiumProtocol
       /\ protocol (remap u u).1 = Some "https:"
       /\ transportUrl s = formatUrl (set_protocol u (Some "https:"))
  else p = "http:" /\ sp = "https:"
       /\ protocol (remap u u).1 = Some "http:"
       /\ transportUrl s = formatUrl u.
Proof.
  intros u Hp Hrp Hsp Hport. unfold transportUrl. fold u.
  pose proof (ProtocolMap_keys _ _ Hrp) as Hk.
  rewrite !elem_of_cons in Hk. destruct Hk as [->|[->|[->|[->|Hk]]]]; [| | | |inversion Hk].
  - change (ProtocolMap !! "rtmp:") with
      (Some {| rp_port := 1935; secureProtocol := Some "rtmps:";
               chromiumProtocol := Some "http:" |}) in Hrp.
    injection Hrp as <-. injection Hsp as <-. cbn [chromiumProtocol truthy nonempty].
    assert (remap u u =
            (set_protocol u (Some "https:"),
             [writeToLog (log_applying_secure_protocol (Some "rtmps:"))])) as Hr.
    { unfold remap. rewrite Hp, Hport. reflexivity. }
    rewrite Hr. repeat split; try reflexivity.
  - change (ProtocolMap !! "rtmps:") with
      (Some {| rp_port := 443; secureProtocol := None;
               chromiumProtocol := Some "https:" |}) in Hrp.
    injection Hrp as <-. discriminate Hsp.
  - change (ProtocolMap !! "http:") with
      (Some {| rp_port := 80; secureProtocol := Some "https:";
               chromiumProtocol := None |}) in Hrp.
    injection Hrp as <-. injection Hsp as <-. cbn [chromiumProtocol truthy].
    rewrite (remap_http u u Hp). repeat split; try reflexivity. exact Hp.
  - change (ProtocolMap !! "https:") with
      (Some {| rp_port := 443; secureProtocol := None;
               chromiumProtocol := None |}) in Hrp.
    injection Hrp as <-. discriminate Hsp.
Qed.

(** C10: a request whose scheme is outside the table, or whose table entry
    has no [chromiumProtocol], keeps its protocol; the URL handed to
    [net.request] is the requested URL parsed and formatted again, and
    [createChromiumSocket] runs to its end as for any other request: the
    request is registered, its listeners are attached and the connection is
    started, with nothing thrown. *)
Theorem unsupported_scheme_passes_through req st :
  ((protocol (parseUrl (url req)) ∉ [Some "rtmp:"; Some "rtmps:"; Some "http:"; Some "https:"])
   \/ exists p rp, protocol (parseUrl (url req)) = Some p
                   /\ ProtocolMap !! p = Some rp /\ chromiumProtocol rp = None) ->
  protocol (remap (parseUrl (url req)) (parseUrl (url req))).1 = protocol (parseUrl (url req))
  /\ transportUrl (url req) = formatUrl (parseUrl (url req))
  /\ createChromiumSocket req st =
       (tt, created st req,
        [ writeToLog (log_mapped_URL (formatUrl (parseUrl (url req))));
          net_request (next_request st) (formatUrl (parseUrl (url req))) true;
          request_createConnection (next_request st) ]).
Proof.
  intros Hu. pose proof (remap_unchanged _ (parseUrl (url req)) Hu) as Hr.
  split; [rewrite Hr; reflexivity|]. split; [unfold transportUrl; rewrite Hr; reflexivity|].
  rewrite M_eta, createChromiumSocket_state, createChromiumSocket_trace.
  unfold transportUrl. rewrite Hr. reflexivity.
Qed.

(** ** The registry *)

Lemma authenticate_registered req h st :
  own (requestMap st) !! auth_url req = Some h ->
  authenticateChromiumSocket req st =
    (tt, st, [authenticateSocket (request_object h) (username req) (password req)]).
Proof.
  intros Hh. unfold authenticateChromiumSocket, js_get. munfold. rewrite Hh. reflexivity.
Qed.

Lemma authenticate_unregistered req st :
  js_get (requestMap st) (auth_url req) = undefined ->
  authenticateChromiumSocket req st = (tt, st, []).
Proof.
  intros Hh. unfold authenticateChromiumSocket. munfold. rewrite Hh. reflexivity.
Qed.

Lemma registry_entry_lifecycle history req later :
  url req <> "__proto__" ->
  let st := after history in
  let h := next_request st in
  let st1 := exec (createChromiumSocket req) st in
  let st2 := exec (run later) st1 in
  js_get (requestMap st1) (url req) = request_object h
  /\ own (requestMap (exec (emit (ERequest h) (ev_close false)) st2)) !! url req = None.
Proof.
  intros Hu st h st1 st2. subst st1 st2. rewrite !createChromiumSocket_state. split.
  - unfold js_get, created, js_set; cbn. rewrite bool_decide_eq_false_2 by assumption.
    cbn. rewrite lookup_insert_eq. reflexivity.
  - pose proof (session_run h req later _ (session_created st req (Inv_after history))) as S.
    destruct (emit_request req h (ev_close false) _ (session_listeners _ _ _ S)) as [-> _].
    cbn. apply lookup_delete_eq.
Qed.

(** ** Errors of the request *)

(** C2 (as amended): whenever the request emits ['error'], whatever has
    happened since the request was created and so also after the success
    callback has run, the request socket is closed and the error callback,
    when one was supplied, is called with the error. *)
Theorem request_error_always_reported history req later err :
  let st := after history in
  let h := next_request st in
  trace (emit (ERequest h) (ev_error err))
        (exec (run (call_createChromiumSocket req :: later)) st) =
    [ writeToLog (log_request_error err); request_closeSocket h ] ++
    (if errorCallback req then [req_errorCallback h err] else []).
Proof.
  intros st h. rewrite exec_run_cons. cbn [step]. rewrite createChromiumSocket_state.
  pose proof (session_run h req later _ (session_created st req (Inv_after history))) as S.
  destruct (emit_request req h (ev_error err) _ (session_listeners _ _ _ S)) as [_ ->].
  reflexivity.
Qed.

(** ** The success callback *)

(** C3 (as amended): the success callback of a request is called only in
    answer to a ['listening'] event of a server started for that request,
    with [{success: true, data: {port, originalUrl}}] where [port] is the
    port that server reports and [originalUrl] is the requested URL parsed
    and formatted again; it is never called when the request never emits
    [requestSocketConnected]; and it is called at most once when the request
    emits [requestSocketConnected] at most once and no server reports
    ['listening'] more than once. *)
Theorem success_callback_once history req later :
  let st := after history in
  let h := next_request st in
  let t := trace (run (call_createChromiumSocket req :: later)) st in
  let final := exec (run (call_createChromiumSocket req :: later)) st in
  (forall result, In (req_callback h result) t ->
     exists p s srv,
       In (host_emits (EServer s) (ev_listening p)) later
       /\ servers final !! s = Some srv
       /\ pc_request (proxyCallback srv) = h
       /\ result = {| success := true;
                      data := Some (p, formatUrl (parseUrl (url req))) |})
  /\ (count_connected h later = 0%nat -> callbacks h t = [])
  /\ ((count_connected h later <= 1)%nat ->
      (forall s, count_listening s later <= 1)%nat ->
      (length (callbacks h t) <= 1)%nat).
Proof.
  intros st h t final. subst t final.
  rewrite trace_run_cons, exec_run_cons. cbn [step].
  rewrite createChromiumSocket_state.
  pose proof (Inv_after history) as I. fold st in I.
  pose proof (session_created st req I) as S. fold h in S.
  assert (callbacks h (trace (createChromiumSocket req) st) = []) as Hc.
  { apply (step_callbacks h (call_createChromiumSocket req) st I). }
  assert (h ∉ owners (created st req)) as Hn.
  { unfold owners; cbn [servers created]. intros Hin.
    apply list_elem_of_fmap in Hin as (srv & Heq & Hsrv).
    pose proof (inv_owner _ I) as F. rewrite Forall_forall in F.
    specialize (F srv Hsrv). subst h. lia. }
  split; [|split].
  - intros result Hin. apply in_app_iff in Hin as [Hin|Hin].
    + exfalso. assert (In (req_callback h result) []) as [].
      rewrite <- Hc. apply callbacks_In. split; [exact Hin|].
      cbn. apply bool_decide_eq_true_2. reflexivity.
    + apply (callback_payload h req later _ result S Hin).
  - intros Hz. rewrite callbacks_app, Hc.
    apply no_connection_no_callback; [apply (session_inv _ _ _ S) | exact Hn | exact Hz].
  - intros Hone Hl. rewrite callbacks_app, Hc. cbn [app].
    pose proof (callbacks_bounded h later _ (session_inv _ _ _ S) Hl) as Hb.
    rewrite (weight_absent h later _ 0 Hn) in Hb. lia.
Qed.

(** ** The single client connection *)

Lemma clientConn_kept inputs st s srv c :
  Inv st -> servers st !! s = Some srv -> clientConn srv = Some c ->
  exists srv', servers (exec (run inputs) st) !! s = Some srv' /\ clientConn srv' = Some c.
Proof.
  intros I Hs Hc. destruct (ext_servers _ _ (run_extends inputs st I) s srv Hs)
    as (srv' & Hs' & _ & _ & Hk).
  exists srv'. auto.
Qed.

(** C4: once a server has its client connection, any further inbound
    connection is ended at once and nothing else happens: the stored
    connection stays, no listener is attached to the newcomer, nothing is
    written upstream, no callback of the request is called and nothing is
    sent to the event bus; whatever the newcomer sends afterwards reaches
    nobody; and the stored connection stays the same through everything
    that follows. *)
Theorem duplicate_connection_rejected history s srv first conn :
  let st := after history in
  servers st !! s = Some srv -> clientConn srv = Some first ->
  emit (EServer s) (ev_connection conn) st =
    (tt, st, [ writeToLog (log_duplicate_connection s); conn_end conn ])
  /\ (entries_of (EConn conn) st = [] ->
      forall sig, emit (EConn conn) sig st = (tt, st, []))
  /\ (forall later, exists srv',
        servers (exec (run later) st) !! s = Some srv' /\ clientConn srv' = Some first).
Proof.
  intros st Hs Hc. pose proof (Inv_after history) as I. fold st in I.
  split; [|split].
  - assert (s < length (servers st))%nat as Hlt by (eapply lookup_lt_Some, Hs).
    destruct (emit_server s srv (ev_connection conn) st (inv_server _ I s Hlt) Hs) as [He Ht].
    rewrite M_eta, He, Ht, Hc. reflexivity.
  - intros Hfresh sig. apply emit_none, Hfresh.
  - intros later. eapply clientConn_kept; eassumption.
Qed.

(** ** The relay *)

(** C6: in a connected session every payload arriving from the local
    connection is passed as it is to [writeSocket] of the request, and every
    buffer arriving from the response is written as it is to the local
    connection, one write per arrival and in the order of arrival, for any
    interleaving of the two directions. *)
Theorem relay_verbatim_in_order st req h s r c (arrivals : list (Direction * Buffer)) :
  wired st req h s r (Some c) ->
  run (map (arrival c r) arrivals) st = (tt, st, concat (map (relayed h c) arrivals)).
Proof.
  intros W. induction arrivals as [|[d payload] rest IH]; [reflexivity|].
  cbn [map concat]. eapply run_cons_eq; [|exact IH].
  destruct d; cbn [arrival relayed step fst snd].
  - rewrite (emit_conn _ _ _ _ _ _ _ W). reflexivity.
  - rewrite (emit_response _ _ _ _ _ _ _ W). reflexivity.
Qed.

(** ** Closing *)

Lemma emit_server_close st req h s r client :
  wired st req h s r client ->
  emit (EServer s) (ev_close false) st =
    (tt, st, [ writeToLog log_server_closed; writeToLog log_close_chromium_socket;
               request_closeSocket h ]).
Proof.
  intros W. destruct (emit_server s _ (ev_close false) st
                        (wired_listeners _ _ _ _ _ _ W) (wired_server _ _ _ _ _ _ W)) as [He Ht].
  rewrite M_eta, He, Ht. reflexivity.
Qed.

Lemma emit_request_close st req h s r client :
  wired st req h s r client ->
  emit (ERequest h) (ev_close false) st =
    (tt, unregistered st (url req), [ writeToLog (log_request_closed (url req)) ]).
Proof.
  intros W. destruct (emit_request req h (ev_close false) st
                        (wired_request _ _ _ _ _ _ W)) as [He Ht].
  rewrite M_eta, He, Ht. reflexivity.
Qed.

(** C8: when the response emits ['error'], the client connection is
    destroyed if the server has one, and the server is closed otherwise; in
    both cases the close events that follow lead to the end of the session:
    the server is closed, the socket of the request is closed and the entry
    of the requested URL is deleted from [requestMap]. *)
Theorem response_error_tears_down st req h s r client err :
  wired st req h s r client ->
  trace (emit (EResponse r) (ev_error err)) st =
    [ writeToLog (log_response_error err);
      match client with
      | Some c => conn_destroy c
      | None => server_close s
      end ]
  /\ settle 4 [host_emits (EResponse r) (ev_error err)] st =
       Some (unregistered st (url req),
             writeToLog (log_response_error err) ::
             match client with
             | Some c => [ conn_destroy c; writeToLog (log_socket_closed false) ]
             | None => []
             end ++
             [ server_close s;
               writeToLog log_server_closed; writeToLog log_close_chromium_socket;
               request_closeSocket h; writeToLog (log_request_closed (url req)) ])
  /\ own (requestMap (unregistered st (url req))) !! url req = None.
Proof.
  intros W. split; [|split].
  - unfold trace. rewrite (emit_response _ _ _ _ _ _ _ W). reflexivity.
  - destruct client as [c|].
    + settle_step (emit_response _ _ _ _ _ _ _ W).
      settle_step (emit_conn _ _ _ _ _ _ _ W).
      settle_step (emit_server_close _ _ _ _ _ _ W).
      settle_step (emit_request_close _ _ _ _ _ _ W). reflexivity.
    + settle_step (emit_response _ _ _ _ _ _ _ W).
      settle_step (emit_server_close _ _ _ _ _ _ W).
      settle_step (emit_request_close _ _ _ _ _ _ W). reflexivity.
  - cbn. apply lookup_delete_eq.
Qed.

(** C9: when the client connection emits ['close'] the server is closed;
    the ['close'] event of the server in turn closes the socket of the
    request, and the two follow one another when the host answers each
    close call with the corresponding event. *)
Theorem local_close_closes_listener_then_upstream st req h s r c hadError :
  wired st req h s r (Some c) ->
  emit (EConn c) (ev_close hadError) st =
    (tt, st, [ writeToLog (log_socket_closed hadError); server_close s ])
  /\ emit (EServer s) (ev_close false) st =
    (tt, st, [ writeToLog log_server_closed; writeToLog log_close_chromium_socket;
               request_closeSocket h ])
  /\ settle 3 [host_emits (EConn c) (ev_close hadError)] st =
       Some (unregistered st (url req),
             [ writeToLog (log_socket_closed hadError); server_close s;
               writeToLog log_server_closed; writeToLog log_close_chromium_socket;
               request_closeSocket h; writeToLog (log_request_closed (url req)) ]).
Proof.
  intros W. split; [|split].
  - rewrite (emit_conn _ _ _ _ _ _ _ W). reflexivity.
  - apply (emit_server_close _ _ _ _ _ _ W).
  - settle_step (emit_conn _ _ _ _ _ _ _ W).
    settle_step (emit_server_close _ _ _ _ _ _ W).
    settle_step (emit_request_close _ _ _ _ _ _ W). reflexivity.
Qed.

(** *** How a session gets wired *)

Lemma wired_started st req h r :
  session h req st -> entries_of (EResponse r) st = [] ->
  wired (exec (emit (ERequest h) (ev_requestSocketConnected r)) st)
        req h (length (servers st)) r None.
Proof.
  intros S Hr. pose proof (session_inv _ _ _ S) as I.
  destruct (emit_request req h (ev_requestSocketConnected r) st (session_listeners _ _ _ S))
    as [-> _].
  split.
  - cbn [servers started]. rewrite lookup_app_r by lia.
    rewrite Nat.sub_diag. reflexivity.
  - rewrite entries_of_started, !decide_False by discriminate.
    rewrite app_nil_r. apply (session_listeners _ _ _ S).
  - rewrite entries_of_started, decide_True by reflexivity.
    rewrite (inv_server_none _ I) by lia. reflexivity.
  - rewrite entries_of_started, decide_False by discriminate.
    rewrite decide_True by reflexivity. rewrite Hr. reflexivity.
  - intros c [=].
Qed.

Lemma wired_accepted st req h s r c :
  wired st req h s r None -> entries_of (EConn c) st = [] ->
  wired (exec (emit (EServer s) (ev_connection c)) st) req h s r (Some c).
Proof.
  intros [Hs Hq Hl Hr _] Hc.
  destruct (emit_server s _ (ev_connection c) st Hl Hs) as [-> _].
  cbn [clientConn response]. split.
  - cbn [servers accepted]. rewrite list_lookup_alter_eq, Hs. reflexivity.
  - rewrite entries_of_accepted, !decide_False by discriminate.
    rewrite app_nil_r. exact Hq.
  - rewrite entries_of_accepted, !decide_False by discriminate.
    rewrite app_nil_r. exact Hl.
  - rewrite entries_of_accepted, decide_False by discriminate.
    rewrite decide_True by reflexivity. rewrite Hr. reflexivity.
  - intros c' [= <-]. rewrite entries_of_accepted, decide_True by reflexivity.
    rewrite Hc. reflexivity.
Qed.

End Proofs.

(** ** The program on concrete requests *)

Local Open Scope nat_scope.

Lemma sample_wired :
  wired (@after nodeUrl sample_history) sample_request 0 0 7 (Some 3).
Proof.
  split; [vm_compute; reflexivity .. |].
  intros c [= <-]. vm_compute. reflexivity.
Defined.

(** C1, as stated, fails: [http://host:443/] has a supported scheme with a
    secure variant, [https:], and the port 443, and the URL handed to
    [net.request] still has the plain protocol [http:], not [https:]. *)
Lemma plain_http_on_secure_port_not_secured :
  let u := node_parse "http://host:443/" in
  protocol u = Some "http:" /\ port u = Some "443"
  /\ (ProtocolMap !! "http:") ≫= secureProtocol = Some "https:"
  /\ protocol (remap u u).1 = Some "http:"
  /\ protocol (remap u u).1 <> Some "https:"
  /\ @transportUrl nodeUrl "http://host:443/" = "http://host:443/".
Proof. repeat split; try discriminate; vm_compute; reflexivity. Qed.

(** C5: for the requested URL ["__proto__"] the assignment to [requestMap]
    creates no entry but replaces the prototype of the map, the [delete] on
    ['close'] removes nothing, and a read under that URL still yields the
    closed request, to which a later authentication is forwarded. *)
Theorem proto_key_survives_close :
  let req := {| url := "__proto__"; errorCallback := true |} in
  let st1 := exec (@createChromiumSocket nodeUrl req) init in
  let st2 := exec (@emit nodeUrl (ERequest 0) (ev_close false)) st1 in
  own (requestMap st1) !! "__proto__" = None
  /\ js_get (requestMap st2) "__proto__" = request_object 0
  /\ trace (authenticateChromiumSocket
              {| auth_url := "__proto__"; username := "user"; password := "secret" |}) st2
     = [ authenticateSocket (request_object 0) "user" "secret" ].
Proof. repeat split; vm_compute; reflexivity. Qed.

(** C7: with no request registered, authenticating for the URL
    ["constructor"] reads [Object.prototype.constructor] from [requestMap],
    passes the test and throws a [TypeError] on the missing method. *)
Theorem authenticate_inherited_key_throws :
  authenticateChromiumSocket
    {| auth_url := "constructor"; username := "user"; password := "secret" |} init
  = (tt, init, [throw TypeError]).
Proof. vm_compute. reflexivity. Qed.

(** C2, as stated, fails: the request emits ['error'] after the success
    callback has run, and the error callback is called. *)
Lemma errorCallback_called_after_ready :
  let ready := [ call_createChromiumSocket sample_request;
                 host_emits (ERequest 0) (ev_requestSocketConnected 7);
                 host_emits (EServer 0) (ev_listening 8000%Z) ] in
  In (req_callback 0 {| success := true; data := Some (8000%Z, "rtmp://host:443/stream") |})
     (trace (@run nodeUrl ready) init)
  /\ In (req_errorCallback 0 "connection reset")
        (trace (@emit nodeUrl (ERequest 0) (ev_error "connection reset"))
               (@after nodeUrl ready)).
Proof. split; vm_compute; tauto. Qed.

(** C3, as stated, fails: for the requested URL [http://example.com] the
    success callback receives [http://example.com/]. *)
Lemma originalUrl_is_normalised :
  let req := {| url := "http://example.com"; errorCallback := true |} in
  callbacks 0
    (trace (@run nodeUrl [ call_createChromiumSocket req;
                           host_emits (ERequest 0) (ev_requestSocketConnected 7);
                           host_emits (EServer 0) (ev_listening 8000%Z) ]) init)
  = [ req_callback 0 {| success := true; data := Some (8000%Z, "http://example.com/") |} ]
  /\ "http://example.com/" <> url req.
Proof. split; [vm_compute; reflexivity | discriminate]. Qed.

(** *** The statements at the sample request *)

Lemma success_callback_once_witness :
  (count_connected 0 (tl sample_history) <= 1)%nat
  /\ (forall s, (count_listening s (tl sample_history) <= 1)%nat)
  /\ (length (callbacks 0 (trace (@run nodeUrl sample_history) init)) <= 1)%nat.
Proof.
  assert (count_connected 0 (tl sample_history) <= 1)%nat as H1 by (vm_compute; lia).
  assert (forall s, count_listening s (tl sample_history) <= 1)%nat as H2.
  { intros s. unfold count_listening. cbn. destruct (bool_decide (0%nat = s)); cbn; lia. }
  split; [exact H1|]. split; [exact H2|].
  exact (proj2 (proj2 (@success_callback_once nodeUrl [] sample_request (tl sample_history))) H1 H2).
Defined.

Lemma secure_variant_only_behind_chromiumProtocol_witness :
  protocol (node_parse "rtmp://host:443/") = Some "rtmp:"
  /\ port (node_parse "rtmp://host:443/") = Some "443"
  /\ @transportUrl nodeUrl "rtmp://host:443/" =
       node_format (set_protocol (node_parse "rtmp://host:443/") (Some "https:")).
Proof.
  assert (protocol (node_parse "rtmp://host:443/") = Some "rtmp:") as Hp
    by (vm_compute; reflexivity).
  assert (port (node_parse "rtmp://host:443/") = Some "443") as Hport
    by (vm_compute; reflexivity).
  split; [exact Hp|]. split; [exact Hport|].
  exact (proj2 (proj2 (proj2 (proj2
    (@secure_variant_only_behind_chromiumProtocol nodeUrl "rtmp://host:443/"
       "rtmp:" "rtmps:"
       {| rp_port := 1935; secureProtocol := Some "rtmps:"; chromiumProtocol := Some "http:" |}
       Hp eq_refl eq_refl Hport))))).
Defined.

Lemma unsupported_scheme_passes_through_witness :
  let req := {| url := "ftp://host/file"; errorCallback := true |} in
  (protocol (node_parse (url req)) ∉ [Some "rtmp:"; Some "rtmps:"; Some "http:"; Some "https:"])
  /\ @transportUrl nodeUrl (url req) = "ftp://host/file".
Proof.
  intros req.
  assert (protocol (node_parse (url req))
            ∉ [Some "rtmp:"; Some "rtmps:"; Some "http:"; Some "https:"]) as Hn.
  { apply (bool_decide_unpack _). vm_compute. exact I. }
  split; [exact Hn|].
  exact (eq_trans
           (proj1 (proj2 (@unsupported_scheme_passes_through nodeUrl req init (or_introl Hn))))
           eq_refl).
Defined.

Lemma duplicate_connection_rejected_witness :
  servers (@after nodeUrl sample_history) !! 0%nat =
    Some {| proxyCallback := {| pc_req := sample_request; pc_request := 0 |};
            response := 7; clientConn := Some 3 |}
  /\ @emit nodeUrl (EServer 0) (ev_connection 4) (@after nodeUrl sample_history) =
       (tt, @after nodeUrl sample_history,
        [ writeToLog (log_duplicate_connection 0); conn_end 4 ]).
Proof.
  assert (servers (@after nodeUrl sample_history) !! 0%nat =
    Some {| proxyCallback := {| pc_req := sample_request; pc_request := 0 |};
            response := 7; clientConn := Some 3 |}) as Hs by (vm_compute; reflexivity).
  split; [exact Hs|].
  exact (proj1 (@duplicate_connection_rejected nodeUrl sample_history 0 _ 3 4 Hs eq_refl)).
Defined.

Lemma relay_verbatim_in_order_witness :
  wired (@after nodeUrl sample_history) sample_request 0 0 7 (Some 3)
  /\ @run nodeUrl
       [ host_emits (EConn 3) (ev_data [Byte.x01; Byte.x02]);
         host_emits (EResponse 7) (ev_data [Byte.x03]);
         host_emits (EConn 3) (ev_data [Byte.x04]) ]
       (@after nodeUrl sample_history)
     = (tt, @after nodeUrl sample_history,
        [ writeToLog (log_input_data 2); writeToLog (log_output_chromium_data 2);
          request_writeSocket 0 [Byte.x01; Byte.x02];
          conn_write 3 [Byte.x03];
          writeToLog (log_input_chromium_data 1); writeToLog (log_input_chromium_text [Byte.x03]);
          writeToLog (log_input_data 1); writeToLog (log_output_chromium_data 1);
          request_writeSocket 0 [Byte.x04] ]).
Proof.
  split; [exact sample_wired|].
  exact (@relay_verbatim_in_order nodeUrl _ _ _ _ _ _
           [ (from_local, [Byte.x01; Byte.x02]); (from_upstream, [Byte.x03]);
             (from_local, [Byte.x04]) ] sample_wired).
Defined.

Lemma response_error_tears_down_witness :
  wired (@after nodeUrl sample_history) sample_request 0 0 7 (Some 3)
  /\ @settle nodeUrl 4 [host_emits (EResponse 7) (ev_error "reset")]
        (@after nodeUrl sample_history)
     = Some (unregistered (@after nodeUrl sample_history) "rtmp://host:443/stream",
             [ writeToLog (log_response_error "reset"); conn_destroy 3;
               writeToLog (log_socket_closed false); server_close 0;
               writeToLog log_server_closed; writeToLog log_close_chromium_socket;
               request_closeSocket 0;
               writeToLog (log_request_closed "rtmp://host:443/stream") ]).
Proof.
  split; [exact sample_wired|].
  exact (proj1 (proj2 (@response_error_tears_down nodeUrl _ _ _ _ _ _ "reset" sample_wired))).
Defined.

Lemma local_close_closes_listener_then_upstream_witness :
  wired (@after nodeUrl sample_history) sample_request 0 0 7 (Some 3)
  /\ @settle nodeUrl 3 [host_emits (EConn 3) (ev_close false)]
        (@after nodeUrl sample_history)
     = Some (unregistered (@after nodeUrl sample_history) "rtmp://host:443/stream",
             [ writeToLog (log_socket_closed false); server_close 0;
               writeToLog log_server_closed; writeToLog log_close_chromium_socket;
               request_closeSocket 0;
               writeToLog (log_request_closed "rtmp://host:443/stream") ]).
Proof.
  split; [exact sample_wired|].
  exact (proj2 (proj2 (@local_close_closes_listener_then_upstream
                         nodeUrl _ _ _ _ _ _ false sample_wired))).
Defined.

(** * More of the module *)

Section More.
Context `{U : UrlModule}.

Local Open Scope Z_scope.

Lemma remap_fields u m :
  let m' := (remap u m).1 in
  slashes m' = slashes m /\ auth m' = auth m /\ host m' = host m /\ port m' = port m
  /\ hostname m' = hostname m /\ hash m' = hash m /\ search m' = search m
  /\ query m' = query m /\ pathname m' = pathname m /\ path m' = path m
  /\ href m' = href m.
Proof.
  unfold remap. destruct (protocol u ≫= _) as [rp|]; [|cbn; tauto].
  destruct (truthy (chromiumProtocol rp)); [|cbn; tauto].
  destruct (_ && _)%bool; [|cbn; tauto].
  destruct (secureProtocol rp ≫= _); cbn; tauto.
Qed.

Lemma remap_protocol u m :
  protocol (remap u m).1 =
    match protocol u with
    | Some p =>
        if decide (p = "rtmp:")
        then if decide (port u = Some "443") then Some "https:" else Some "http:"
        else if decide (p = "rtmps:") then Some "https:" else protocol m
    | None => protocol m
    end.
Proof.
  unfold remap. destruct (protocol u) as [p|]; [|reflexivity]. cbn [mbind option_bind].
  destruct (decide (p = "rtmp:")) as [->|H1].
  { destruct (decide (port u = Some "443")) as [->|Hp]; [reflexivity|].
    change (ProtocolMap !! "rtmp:") with
      (Some {| rp_port := 1935; secureProtocol := Some "rtmps:"; chromiumProtocol := Some "http:" |}).
    cbn [chromiumProtocol secureProtocol truthy nonempty].
    rewrite bool_decide_eq_false_2 by assumption. reflexivity. }
  destruct (decide (p = "rtmps:")) as [->|H2].
  { change (ProtocolMap !! "rtmps:") with
      (Some {| rp_port := 443; secureProtocol := None; chromiumProtocol := Some "https:" |}).
    cbn [chromiumProtocol secureProtocol truthy nonempty].
    rewrite andb_false_r. reflexivity. }
  destruct (ProtocolMap !! p) as [rp|] eqn:Hp; [|reflexivity].
  apply elem_of_list_to_map_2 in Hp.
  rewrite !elem_of_cons in Hp.
  destruct Hp as [[= -> ->]|[[= -> ->]|[[= -> ->]|[[= -> ->]|Hp]]]];
    try congruence; try reflexivity.
  inversion Hp.
Qed.

(** *** The registry through the inputs *)

Lemma request_of_known st req h :
  entries_of (ERequest h) st = request_listeners req h -> request_of st h = Some req.
Proof.
  intros E. unfold request_of. rewrite subscribed_entries, E. vm_compute. reflexivity.
Qed.

Lemma request_of_unknown st h :
  entries_of (ERequest h) st = [] -> request_of st h = None.
Proof. intros E. unfold request_of. rewrite subscribed_entries, E. reflexivity. Qed.

Lemma step_requestMap i st :
  Inv st ->
  requestMap (exec (step i) st) =
    match i with
    | call_createChromiumSocket req => js_set (requestMap st) (url req) (next_request st)
    | host_emits (ERequest h) (ev_close _) =>
        match request_of st h with
        | Some req => js_delete (requestMap st) (url req)
        | None => requestMap st
        end
    | _ => requestMap st
    end.
Proof.
  intros I. destruct i as [req|req|e sig]; cbn [step].
  - rewrite createChromiumSocket_state. reflexivity.
  - rewrite authenticateChromiumSocket_state. reflexivity.
  - destruct e as [h|r|s|c].
    + destruct (decide (h < next_request st)%nat) as [Hh|Hh].
      * destruct (inv_request _ I h Hh) as [req E].
        destruct (emit_request req h sig st E) as [-> _].
        rewrite (request_of_known _ _ _ E). destruct sig; reflexivity.
      * assert (entries_of (ERequest h) st = []) as E by (apply (inv_request_none _ I); lia).
        unfold exec. rewrite (emit_none _ _ _ E), (request_of_unknown _ _ E).
        destruct sig; reflexivity.
    + rewrite emit_stream by apply (inv_response _ I). reflexivity.
    + destruct (decide (s < length (servers st))%nat) as [Hs|Hs].
      * destruct (lookup_lt_is_Some_2 _ _ Hs) as [srv Hsrv].
        destruct (emit_server s srv sig st (inv_server _ I s Hs) Hsrv) as [-> _].
        destruct sig, (clientConn srv); reflexivity.
      * unfold exec. rewrite emit_none by (apply (inv_server_none _ I); lia). reflexivity.
    + rewrite emit_stream by apply (inv_conn _ I). reflexivity.
Qed.

Lemma quiet_requestMap later st :
  Inv st -> Forall (fun i => quiet i = true) later ->
  requestMap (exec (run later) st) = requestMap st.
Proof.
  revert st. induction later as [|i rest IH]; intros st I Hq; [reflexivity|].
  apply Forall_cons in Hq as [Hi Hrest].
  rewrite exec_run_cons, IH by (try apply Inv_step; assumption).
  rewrite step_requestMap by assumption.
  destruct i as [| |[] []]; try discriminate; reflexivity.
Qed.

Lemma ordinary_proto inputs st :
  Inv st -> Forall (fun i => ordinary i = true) inputs ->
  proto (requestMap st) = None -> proto (requestMap (exec (run inputs) st)) = None.
Proof.
  revert st. induction inputs as [|i rest IH]; intros st I Ho Hp; [exact Hp|].
  apply Forall_cons in Ho as [Hi Hrest].
  rewrite exec_run_cons. apply IH; [apply Inv_step, I | exact Hrest |].
  rewrite step_requestMap by assumption.
  destruct i as [req| |[h| | |] []]; try exact Hp.
  - cbn [ordinary] in Hi. apply negb_true_iff, bool_decide_eq_false in Hi.
    unfold js_set. rewrite bool_decide_eq_false_2 by assumption. exact Hp.
  - destruct (request_of st h); exact Hp.
Qed.


(** *** What the listeners of streams do *)

Lemma run_listener_stream_effect l sig st a :
  stream_listener l = true -> In a (trace (run_listener l sig) st) -> stream_effect sig a.
Proof.
  intros Hl. destruct l; try discriminate; destruct sig; munfold; cbn;
    try (destruct (servers st !! s) as [srv|]; cbn; try destruct (clientConn srv); cbn);
    intros Hin; repeat (destruct Hin as [<-|Hin]; [cbn; auto|]); destruct Hin.
Qed.

Lemma run_listeners_stream_effect ls sig st a :
  Forall (fun l => stream_listener l = true) ls ->
  In a (trace (run_listeners ls sig) st) -> stream_effect sig a.
Proof.
  induction 1 as [|l ls Hl Hls IH]; [intros []|].
  rewrite trace_listeners_cons, run_listener_stream by assumption.
  intros Hin. apply in_app_iff in Hin as [Hin|Hin]; [|exact (IH Hin)].
  eapply run_listener_stream_effect; eassumption.
Qed.

Lemma emit_stream_effect e sig st a :
  Forall (fun x => stream_listener x.2 = true) (entries_of e st) ->
  In a (trace (emit e sig) st) -> stream_effect sig a.
Proof.
  intros F. rewrite trace_emit. apply run_listeners_stream_effect, subscribed_stream, F.
Qed.

(** ** The remapping, field by field *)

(** X1: The remapping replaces the protocol of [mappedUrl] and nothing else:
    [rtmp:] becomes [http:], or [https:] when the port is 443, [rtmps:]
    becomes [https:], and every other protocol stays; host, port and path
    are never touched. *)
Theorem remap_replaces_only_the_protocol (u m : Url) :
  (remap u m).1 =
    set_protocol m
      match protocol u with
      | Some p =>
          if decide (p = "rtmp:")
          then if decide (port u = Some "443") then Some "https:" else Some "http:"
          else if decide (p = "rtmps:") then Some "https:" else protocol m
      | None => protocol m
      end.
Proof.
  rewrite <- remap_protocol.
  unfold remap. destruct (protocol u ≫= _) as [rp|]; [|destruct m; reflexivity].
  destruct (truthy (chromiumProtocol rp)); [|destruct m; reflexivity].
  destruct (_ && _)%bool; [|reflexivity].
  destruct (secureProtocol rp ≫= _); reflexivity.
Qed.

(** ** The registry *)

(** X2: The entry of [requestMap] under a URL changes in two ways only:
    [createChromiumSocket] for that URL puts the new request there (unless
    the URL is ["__proto__"]), and the ['close'] event of a request created
    for that URL deletes it; every other input, and every input about
    another URL, leaves it as it was. *)
Theorem registry_entry_by_input history i (u : string) :
  let st := after history in
  own (requestMap (exec (step i) st)) !! u =
    match i with
    | call_createChromiumSocket req =>
        if decide (url req = u /\ u <> "__proto__")
        then Some (next_request st) else own (requestMap st) !! u
    | host_emits (ERequest h) (ev_close _) =>
        match request_of st h with
        | Some req => if decide (url req = u) then None else own (requestMap st) !! u
        | None => own (requestMap st) !! u
        end
    | _ => own (requestMap st) !! u
    end.
Proof.
  intros st. rewrite (step_requestMap i st (Inv_after history)).
  destruct i as [req| |[h| | |] []]; try reflexivity.
  - unfold js_set. case_bool_decide as Hp; cbn [own].
    + rewrite decide_False by (intros [Heq Hn]; subst u; exact (Hn Hp)). reflexivity.
    + rewrite lookup_insert. destruct (decide (url req = u)) as [Heq|Hne].
      * rewrite decide_True by (split; [exact Heq|congruence]). reflexivity.
      * rewrite decide_False by (intros [? _]; contradiction). reflexivity.
  - destruct (request_of st h) as [req|]; [|reflexivity].
    cbn [js_delete own]. rewrite lookup_delete. reflexivity.
Qed.

(** X3: Two requests for the same URL share one entry: the later request takes
    it over, and when the earlier request closes, the entry is deleted
    although the later request is still open. *)
Theorem same_url_requests_share_the_entry history req1 between req2 later :
  url req2 = url req1 -> url req1 <> "__proto__" ->
  Forall (fun i => quiet i = true) later ->
  let st0 := after history in
  let h1 := next_request st0 in
  let st1 := exec (run (call_createChromiumSocket req1 :: between)) st0 in
  let h2 := next_request st1 in
  let st2 := exec (run (call_createChromiumSocket req2 :: later)) st1 in
  (h1 < h2)%nat
  /\ own (requestMap st2) !! url req1 = Some h2
  /\ own (requestMap (exec (emit (ERequest h1) (ev_close false)) st2)) !! url req1 = None.
Proof.
  intros Hu Hp Hq st0 h1 st1 h2 st2.
  pose proof (Inv_after history) as I0. fold st0 in I0.
  assert (session h1 req1 st1) as S1.
  { subst st1. rewrite exec_run_cons. cbn [step]. rewrite createChromiumSocket_state.
    apply session_run, session_created, I0. }
  pose proof (session_inv _ _ _ S1) as I1.
  assert (session h1 req1 st2) as S2.
  { subst st2. apply session_run, S1. }
  split; [exact (session_known _ _ _ S1)|]. split.
  - subst st2. rewrite exec_run_cons. cbn [step]. rewrite createChromiumSocket_state.
    rewrite quiet_requestMap by (try apply Inv_created; assumption).
    cbn [requestMap created]. unfold js_set. rewrite Hu.
    rewrite bool_decide_eq_false_2 by assumption. cbn [own]. apply lookup_insert_eq.
  - destruct (emit_request req1 h1 (ev_close false) st2 (session_listeners _ _ _ S2)) as [-> _].
    cbn. apply lookup_delete_eq.
Qed.

(** X4: Credentials given for the URL of a request reach that request
    unchanged, and nothing else happens, as long as no request was created
    or closed since. *)
Theorem credentials_reach_the_request history req later areq :
  url req <> "__proto__" -> auth_url areq = url req ->
  Forall (fun i => quiet i = true) later ->
  let st := exec (run (call_createChromiumSocket req :: later)) (after history) in
  authenticateChromiumSocket areq st =
    (tt, st, [ authenticateSocket (request_object (next_request (after history)))
                 (username areq) (password areq) ]).
Proof.
  intros Hp Hu Hq st. apply authenticate_registered.
  subst st. rewrite exec_run_cons. cbn [step]. rewrite createChromiumSocket_state.
  rewrite quiet_requestMap by (try apply Inv_created, Inv_after; assumption).
  cbn [requestMap created]. unfold js_set. rewrite Hu.
  rewrite bool_decide_eq_false_2 by assumption. cbn [own]. apply lookup_insert_eq.
Qed.

(** X5: Once a request has closed, credentials given for its URL do nothing at
    all, provided the URL is not the name of a member of [Object.prototype],
    no request was ever made for ["__proto__"], and no other request was
    created or closed in between. *)
Theorem authenticate_after_close_is_silent history req later areq :
  Forall (fun i => ordinary i = true) history ->
  url req ∉ ObjectPrototype -> auth_url areq = url req ->
  Forall (fun i => quiet i = true) later ->
  let h := next_request (after history) in
  let st := exec (run (call_createChromiumSocket req :: later
                         ++ [host_emits (ERequest h) (ev_close false)])) (after history) in
  authenticateChromiumSocket areq st = (tt, st, []).
Proof.
  intros Ho Hn Hu Hq h st. apply authenticate_unregistered.
  assert (url req <> "__proto__") as Hp.
  { intros Heq. apply Hn. rewrite Heq. apply (bool_decide_unpack _). vm_compute. exact I. }
  pose proof (Inv_after history) as I0.
  pose proof (session_run h req later _ (session_created _ req I0)) as S.
  subst st. rewrite app_comm_cons, exec_run_app, !exec_run_cons. cbn [run step].
  rewrite createChromiumSocket_state.
  destruct (emit_request req h (ev_close false) _ (session_listeners _ _ _ S)) as [-> _].
  change (exec (ret ()) ?x) with x.
  unfold js_get. cbn [requestMap unregistered js_delete own proto].
  rewrite Hu, lookup_delete_eq.
  rewrite quiet_requestMap by (try apply Inv_created; assumption).
  cbn [requestMap created]. unfold js_set.
  rewrite bool_decide_eq_false_2 by assumption. cbn [proto].
  pose proof (ordinary_proto history init Inv_init Ho eq_refl) as Hproto.
  fold (after history) in Hproto. rewrite Hproto.
  rewrite bool_decide_eq_false_2 by assumption. reflexivity.
Qed.


(** ** Events of a request *)

Lemma session_after history req later :
  session (next_request (after history)) req
          (exec (run (call_createChromiumSocket req :: later)) (after history)).
Proof.
  rewrite exec_run_cons. cbn [step]. rewrite createChromiumSocket_state.
  apply session_run, session_created, Inv_after.
Qed.

(** X6: Whenever a request emits [socketAuthRequired], whatever has happened to
    it before, one [proxy-socket-auth-requested] notification is published
    with the URL and the proxy flag of the event, and nothing else changes. *)
Theorem auth_required_is_published history req later event :
  let st := exec (run (call_createChromiumSocket req :: later)) (after history) in
  emit (ERequest (next_request (after history))) (ev_socketAuthRequired event) st =
    (tt, st,
     [ writeToLog (log_auth_requested (ev_url event));
       ofEvents_emit_system "proxy-socket-auth-requested"
         {| ev_url := ev_url event; isProxy := isProxy event |} ]).
Proof.
  intros st. pose proof (session_after history req later) as S. fold st in S.
  destruct (emit_request req _ (ev_socketAuthRequired event) st (session_listeners _ _ _ S))
    as [He Ht].
  rewrite M_eta, He, Ht. reflexivity.
Qed.

(** X7: Every [requestSocketConnected] event of a request starts one more
    server for it, whether or not it has one already: the server is created
    without a client connection, limited to one connection, and asked to
    listen on port 0 of [localhost]. *)
Theorem each_connected_event_starts_a_server history req later r :
  let h := next_request (after history) in
  let st := exec (run (call_createChromiumSocket req :: later)) (after history) in
  let s := length (servers st) in
  let st' := exec (emit (ERequest h) (ev_requestSocketConnected r)) st in
  trace (emit (ERequest h) (ev_requestSocketConnected r)) st =
    [ writeToLog log_requestSocketConnected; nodeNet_createServer s;
      server_maxConnections s 1; server_listen s 0 "localhost" ]
  /\ servers st' =
       servers st ++ [ {| proxyCallback := {| pc_req := req; pc_request := h |};
                          response := r; clientConn := None |} ]
  /\ entries_of (EServer s) st' = server_listeners s
  /\ requestMap st' = requestMap st.
Proof.
  intros h st s st'. pose proof (session_after history req later) as S. fold st h in S.
  subst st'.
  destruct (emit_request req h (ev_requestSocketConnected r) st (session_listeners _ _ _ S))
    as [-> ->].
  split; [reflexivity|]. split; [reflexivity|]. split; [|reflexivity].
  rewrite entries_of_started, decide_True by reflexivity.
  rewrite (inv_server_none _ (session_inv _ _ _ S)) by (subst s; lia). reflexivity.
Qed.

(** X8: After [createChromiumSocket], [requestSocketConnected] with a new
    response and a first connection that is new as well, the session is
    wired: the server holds that connection, and request, server, response
    and connection carry exactly the listeners of the source. *)
Theorem session_gets_wired history req r c :
  let st := after history in
  entries_of (EResponse r) st = [] -> entries_of (EConn c) st = [] ->
  wired (exec (run [ call_createChromiumSocket req;
                     host_emits (ERequest (next_request st)) (ev_requestSocketConnected r);
                     host_emits (EServer (length (servers st))) (ev_connection c) ]) st)
        req (next_request st) (length (servers st)) r (Some c).
Proof.
  intros st Hr Hc. rewrite !exec_run_cons. cbn [step run].
  change (exec (ret ()) ?x) with x. rewrite createChromiumSocket_state.
  pose proof (session_created st req (Inv_after history)) as S.
  assert (entries_of (EResponse r) (created st req) = []) as Hr1.
  { rewrite entries_of_created, decide_False by discriminate. rewrite Hr. reflexivity. }
  pose proof (wired_started _ _ _ r S Hr1) as W. cbn [servers created] in W.
  apply wired_accepted; [exact W|].
  destruct (emit_request req _ (ev_requestSocketConnected r) _ (session_listeners _ _ _ S))
    as [-> _].
  rewrite entries_of_started, !decide_False by discriminate.
  rewrite entries_of_created, decide_False by discriminate. rewrite Hc. reflexivity.
Qed.

(** ** Events of a server *)

(** X9: The first connection offered to a server becomes its client connection:
    it is logged, stored, and given the listeners of the relay, and nothing
    is sent to it or to the caller. *)
Theorem first_connection_is_accepted st req h s r c :
  wired st req h s r None -> entries_of (EConn c) st = [] ->
  emit (EServer s) (ev_connection c) st =
    (tt, accepted st s c r, [ writeToLog (log_new_connection c) ])
  /\ wired (accepted st s c r) req h s r (Some c).
Proof.
  intros W Hc. pose proof (wired_accepted _ _ _ _ _ c W Hc) as W'.
  destruct (emit_server s _ (ev_connection c) st
              (wired_listeners _ _ _ _ _ _ W) (wired_server _ _ _ _ _ _ W)) as [He Ht].
  cbn [clientConn response] in He, Ht. rewrite He in W'.
  split; [|exact W']. rewrite M_eta, He, Ht. reflexivity.
Qed.

(** X10: Each ['listening'] event of a server calls the success callback of its
    request with the reported port, once per event and with no memory of
    earlier calls. *)
Theorem listening_reports_the_port history s srv (ports : list Z) :
  let st := after history in
  servers st !! s = Some srv ->
  run (map (fun p => host_emits (EServer s) (ev_listening p)) ports) st =
    (tt, st,
     concat (map (fun p =>
       [ writeToLog (log_server_info s);
         req_callback (pc_request (proxyCallback srv))
           {| success := true;
              data := Some (p, formatUrl (parseUrl (url (pc_req (proxyCallback srv))))) |} ])
       ports)).
Proof.
  intros st Hs. pose proof (Inv_after history) as I. fold st in I.
  assert (s < length (servers st))%nat as Hlt by (eapply lookup_lt_Some, Hs).
  induction ports as [|p rest IH]; [reflexivity|].
  cbn [map concat]. eapply run_cons_eq; [|exact IH]. cbn [step].
  destruct (emit_server s srv (ev_listening p) st (inv_server _ I s Hlt) Hs) as [He Ht].
  rewrite M_eta, He, Ht. reflexivity.
Qed.

(** X11: An ['error'] of a server that has no client connection closes the
    server; the close events that follow close the socket of the request and
    delete its entry of [requestMap].  Neither callback of the request is
    called. *)
Theorem listener_error_tears_down_silently st req h s r err :
  wired st req h s r None ->
  emit (EServer s) (ev_error err) st =
    (tt, st, [ writeToLog (log_server_error err); server_close s ])
  /\ settle 3 [host_emits (EServer s) (ev_error err)] st =
       Some (unregistered st (url req),
             [ writeToLog (log_server_error err); server_close s;
               writeToLog log_server_closed; writeToLog log_close_chromium_socket;
               request_closeSocket h; writeToLog (log_request_closed (url req)) ]).
Proof.
  intros W.
  assert (emit (EServer s) (ev_error err) st =
          (tt, st, [ writeToLog (log_server_error err); server_close s ])) as He.
  { destruct (emit_server s _ (ev_error err) st
                (wired_listeners _ _ _ _ _ _ W) (wired_server _ _ _ _ _ _ W)) as [He Ht].
    rewrite M_eta, He, Ht. reflexivity. }
  split; [exact He|].
  settle_step He.
  settle_step (emit_server_close _ _ _ _ _ _ W).
  settle_step (emit_request_close _ _ _ _ _ _ W). reflexivity.
Qed.

(** ** Events of the streams *)

(** *** The listeners of a response and the servers *)

Lemma clients_of_spec r st c :
  c ∈ clients_of r st <->
  exists s srv, servers st !! s = Some srv /\ response srv = r /\ clientConn srv = Some c.
Proof.
  unfold clients_of. rewrite list_elem_of_omap. split.
  - intros (srv & Hin & Hc). apply list_elem_of_lookup in Hin as [s Hs].
    case_decide; [|discriminate]. eauto.
  - intros (s & srv & Hs & Hr & Hc). exists srv. split; [eapply list_elem_of_lookup_2, Hs|].
    rewrite decide_True by assumption. exact Hc.
Qed.

Lemma Fed_init : Fed init.
Proof.
  split.
  - intros r event l Hin. inversion Hin.
  - intros r c Hin. inversion Hin.
Qed.

Lemma Fed_created st req : Fed st -> Fed (created st req).
Proof.
  intros F. split.
  - intros r event l Hin. cbn [listeners created] in Hin.
    apply elem_of_app in Hin as [Hin|Hin]; [exact (fed_listener _ F _ _ _ Hin)|].
    repeat (apply elem_of_cons in Hin as [[=]|Hin]). inversion Hin.
  - intros r c Hin. cbn [listeners created]. apply elem_of_app. left.
    apply (fed_client _ F). exact Hin.
Qed.

Lemma clients_of_started r st pc r' :
  clients_of r (started st pc r') = clients_of r st.
Proof.
  unfold clients_of. cbn [servers started]. rewrite omap_app. cbn.
  case_decide; cbn; apply app_nil_r.
Qed.

Lemma Fed_started st pc r' : Fed st -> Fed (started st pc r').
Proof.
  intros F. split.
  - intros r event l Hin. rewrite clients_of_started. cbn [listeners started] in Hin.
    apply elem_of_app in Hin as [Hin|Hin]; [exact (fed_listener _ F _ _ _ Hin)|].
    repeat (apply elem_of_cons in Hin as [[=]|Hin]); [|inversion Hin].
    subst. left. eauto.
  - intros r c Hin. rewrite clients_of_started in Hin. cbn [listeners started].
    apply elem_of_app. left. apply (fed_client _ F). exact Hin.
Qed.

Lemma clients_of_accepted r st s srv c :
  servers st !! s = Some srv -> clientConn srv = None ->
  forall c', c' ∈ clients_of r (accepted st s c (response srv)) <->
             c' ∈ clients_of r st \/ (c' = c /\ r = response srv).
Proof.
  intros Hs Hc c'. rewrite !clients_of_spec. cbn [servers accepted]. split.
  - intros (s' & srv' & Hs' & Hr & Hc').
    destruct (decide (s' = s)) as [->|Hne].
    + rewrite list_lookup_alter_eq, Hs in Hs'. cbn in Hs'. injection Hs' as <-.
      cbn in Hr, Hc'. right. split; congruence.
    + rewrite list_lookup_alter_ne in Hs' by congruence. left. eauto.
  - intros [(s' & srv' & Hs' & Hr & Hc')|[-> ->]].
    + assert (s' <> s) as Hne by congruence.
      exists s', srv'. rewrite list_lookup_alter_ne by congruence. auto.
    + exists s. eexists. rewrite list_lookup_alter_eq, Hs. cbn. split; [reflexivity|]. auto.
Qed.

Lemma Fed_accepted st s srv c :
  servers st !! s = Some srv -> clientConn srv = None ->
  Fed st -> Fed (accepted st s c (response srv)).
Proof.
  intros Hs Hc F. split.
  - intros r event l Hin. cbn [listeners accepted] in Hin.
    apply elem_of_app in Hin as [Hin|Hin].
    + destruct (fed_listener _ F _ _ _ Hin) as [?|(-> & c' & -> & Hin')]; [left; assumption|].
      right. split; [reflexivity|]. exists c'. split; [reflexivity|].
      apply (clients_of_accepted _ _ _ _ _ Hs Hc). left. exact Hin'.
    + repeat (apply elem_of_cons in Hin as [[=]|Hin]); [|inversion Hin].
      subst. right. split; [reflexivity|]. exists c. split; [reflexivity|].
      apply (clients_of_accepted _ _ _ _ _ Hs Hc). right. split; reflexivity.
  - intros r c' Hin. apply (clients_of_accepted _ _ _ _ _ Hs Hc) in Hin as [Hin|[-> ->]];
      cbn [listeners accepted]; apply elem_of_app.
    + left. apply (fed_client _ F). exact Hin.
    + right. rewrite !elem_of_cons. auto 10.
Qed.

Lemma Fed_unregistered st u : Fed st -> Fed (unregistered st u).
Proof. intros [F1 F2]. split; assumption. Qed.

Lemma Fed_emit e sig st : Inv st -> Fed st -> Fed (exec (emit e sig) st).
Proof.
  intros I F. destruct e as [h|r|s|c].
  - destruct (decide (h < next_request st)%nat) as [Hh|Hh].
    + destruct (inv_request _ I h Hh) as [req E].
      destruct (emit_request req h sig st E) as [-> _].
      destruct sig; auto using Fed_started, Fed_unregistered.
    + unfold exec. rewrite emit_none; [exact F|]. apply (inv_request_none _ I). lia.
  - rewrite emit_stream; [exact F|]. apply (inv_response _ I).
  - destruct (decide (s < length (servers st))%nat) as [Hs|Hs].
    + destruct (lookup_lt_is_Some_2 _ _ Hs) as [srv Hsrv].
      destruct (emit_server s srv sig st (inv_server _ I s Hs) Hsrv) as [-> _].
      destruct sig, (clientConn srv) eqn:Hc; auto using Fed_accepted.
    + unfold exec. rewrite emit_none; [exact F|]. apply (inv_server_none _ I). lia.
  - rewrite emit_stream; [exact F|]. apply (inv_conn _ I).
Qed.

Lemma Fed_step i st : Inv st -> Fed st -> Fed (exec (step i) st).
Proof.
  intros I F. destruct i as [req|req|e sig]; cbn [step].
  - rewrite createChromiumSocket_state. apply Fed_created, F.
  - rewrite authenticateChromiumSocket_state. exact F.
  - apply Fed_emit; assumption.
Qed.

Lemma Fed_run inputs st : Inv st -> Fed st -> Fed (exec (run inputs) st).
Proof.
  revert st. induction inputs as [|i rest IH]; intros st I F; [exact F|].
  rewrite exec_run_cons. apply IH; [apply Inv_step, I|apply Fed_step; assumption].
Qed.

Lemma Fed_after history : Fed (after history).
Proof. apply Fed_run; [apply Inv_init|apply Fed_init]. Qed.

Lemma subscribed_elem e event l st :
  l ∈ subscribed e event st <-> (e, event, l) ∈ listeners st.
Proof.
  unfold subscribed. rewrite list_elem_of_omap. split.
  - intros ([[e' event'] l'] & Hin & Hx).
    destruct (bool_decide (e' = e)) eqn:He; [|discriminate].
    destruct (bool_decide (event' = event)) eqn:Hv; [|discriminate].
    apply bool_decide_eq_true_1 in He, Hv. cbn in Hx. congruence.
  - intros Hin. exists (e, event, l). split; [exact Hin|].
    rewrite !bool_decide_eq_true_2 by reflexivity. reflexivity.
Qed.

Lemma run_listeners_fed ls payload st :
  Forall (fun l => (exists s, l = on_response_error s) \/ exists c, l = on_response_data c) ls ->
  run_listeners ls (ev_data payload) st = (tt, st, concat (map (fed payload) ls)).
Proof.
  induction 1 as [|l ls Hl _ IH]; [reflexivity|].
  cbn [run_listeners map concat]. munfold.
  destruct Hl as [[s ->]|[c ->]]; cbn; rewrite IH; reflexivity.
Qed.

(** X12: In every state the module can reach, a ['data'] event of a response
    writes its buffer to the client connections of the servers started for
    that response, to each of them and to nothing else, and apart from log
    lines does nothing more; the state stays as it is.  As long as no such
    server has a client connection, the event does nothing at all: the
    listener is only registered when a connection is accepted. *)
Theorem response_data_goes_to_the_clients history r payload :
  let st := after history in
  exec (emit (EResponse r) (ev_data payload)) st = st
  /\ (forall c, conn_write c payload ∈ trace (emit (EResponse r) (ev_data payload)) st
                <-> c ∈ clients_of r st)
  /\ Forall (fun a => match a with
                      | conn_write c written => written = payload /\ c ∈ clients_of r st
                      | writeToLog _ => True
                      | _ => False
                      end)
            (trace (emit (EResponse r) (ev_data payload)) st)
  /\ (clients_of r st = [] -> emit (EResponse r) (ev_data payload) st = (tt, st, [])).
Proof.
  intros st. pose proof (Fed_after history) as F. fold st in F.
  assert (emit (EResponse r) (ev_data payload) st =
          (tt, st, concat (map (fed payload) (subscribed (EResponse r) "data" st)))) as He.
  { rewrite emit_eq. apply run_listeners_fed. apply Forall_forall. intros l Hl.
    apply subscribed_elem in Hl.
    destruct (fed_listener _ F _ _ _ Hl) as [(_ & s & ->)|(_ & c & -> & _)]; eauto. }
  unfold exec, trace. rewrite He. cbn [fst snd].
  split; [reflexivity|]. split; [|split].
  - intros c. rewrite list_elem_of_In, in_concat. setoid_rewrite in_map_iff. split.
    + intros (t & (l & <- & Hl) & Hin). apply list_elem_of_In, subscribed_elem in Hl.
      destruct (fed_listener _ F _ _ _ Hl) as [(_ & s & ->)|(_ & c' & -> & Hc)];
        [destruct Hin|].
      destruct Hin as [[= ->]|[[=]|[[=]|[]]]]. exact Hc.
    + intros Hc. exists (fed payload (on_response_data c)). split; [|left; reflexivity].
      exists (on_response_data c). split; [reflexivity|].
      apply list_elem_of_In, subscribed_elem, (fed_client _ F), Hc.
  - apply Forall_forall. intros a Ha.
    rewrite list_elem_of_In, in_concat in Ha. destruct Ha as (t & Ht & Ha).
    apply in_map_iff in Ht as (l & <- & Hl). apply list_elem_of_In, subscribed_elem in Hl.
    destruct (fed_listener _ F _ _ _ Hl) as [(_ & s & ->)|(_ & c' & -> & Hc)];
      [destruct Ha|].
    destruct Ha as [<-|[<-|[<-|[]]]]; [split; [reflexivity|exact Hc]|exact Logic.I ..].
  - intros Hnone.
    destruct (subscribed (EResponse r) "data" st) as [|l ls] eqn:E; [reflexivity|].
    assert (l ∈ subscribed (EResponse r) "data" st) as Hl by (rewrite E; left).
    apply subscribed_elem in Hl.
    destruct (fed_listener _ F _ _ _ Hl) as [([=] & _)|(_ & c & _ & Hc)].
    rewrite Hnone in Hc. inversion Hc.
Qed.

(** X13: ['end'], ['timeout'] and ['error'] of the client connection are only
    logged: the server stays open, nothing is closed and the session stays
    as it is until the connection emits ['close']. *)
Theorem socket_end_timeout_error_only_logged st req h s r c err :
  wired st req h s r (Some c) ->
  settle 1 [host_emits (EConn c) ev_end] st = Some (st, [ writeToLog log_socket_ended ])
  /\ settle 1 [host_emits (EConn c) ev_timeout] st
       = Some (st, [ writeToLog log_socket_timeout ])
  /\ settle 1 [host_emits (EConn c) (ev_error err)] st
       = Some (st, [ writeToLog (log_connect_error err) ]).
Proof.
  intros W. repeat split; settle_step (emit_conn _ _ _ _ _ _ _ W); reflexivity.
Qed.

(** X14: The module writes no bytes of its own: whatever the state, an action
    that writes to the request or to a connection carries the payload of the
    ['data'] event that is being delivered. *)
Theorem only_arrived_bytes_are_written history i a payload :
  In a (trace (step i) (after history)) -> written a = Some payload ->
  exists e, i = host_emits e (ev_data payload)
            /\ match e with EConn _ | EResponse _ => True | _ => False end.
Proof.
  intros Hin Hw. pose proof (Inv_after history) as I. set (st := after history) in *.
  destruct i as [req|req|e sig]; cbn [step] in Hin.
  - rewrite createChromiumSocket_trace in Hin. apply in_app_iff in Hin as [Hin|Hin].
    + apply remap_logs in Hin as [entry ->]. discriminate.
    + repeat (destruct Hin as [<-|Hin]; [discriminate|]). destruct Hin.
  - unfold authenticateChromiumSocket in Hin. revert Hin. munfold.
    destruct (js_get _ _); cbn; intros Hin;
      repeat (destruct Hin as [<-|Hin]; [discriminate|]); destruct Hin.
  - destruct e as [h|r|s|c].
    + exfalso. destruct (decide (h < next_request st)%nat) as [Hh|Hh].
      * destruct (inv_request _ I h Hh) as [req E].
        destruct (emit_request req h sig st E) as [_ Ht]. rewrite Ht in Hin.
        destruct sig; try destruct (errorCallback req); cbn in Hin;
          repeat (destruct Hin as [<-|Hin]; [discriminate|]); destruct Hin.
      * unfold trace in Hin. rewrite emit_none in Hin by (apply (inv_request_none _ I); lia).
        destruct Hin.
    + apply (emit_stream_effect _ _ _ _ (inv_response _ I r)) in Hin.
      destruct a; try discriminate; cbn in Hin, Hw; injection Hw as ->; subst sig;
        eexists; (split; [reflexivity|exact Logic.I]).
    + exfalso. destruct (decide (s < length (servers st))%nat) as [Hs|Hs].
      * destruct (lookup_lt_is_Some_2 _ _ Hs) as [srv Hsrv].
        destruct (emit_server s srv sig st (inv_server _ I s Hs) Hsrv) as [_ Ht].
        rewrite Ht in Hin.
        destruct sig; try destruct (clientConn srv); cbn in Hin;
          repeat (destruct Hin as [<-|Hin]; [discriminate|]); destruct Hin.
      * unfold trace in Hin. rewrite emit_none in Hin by (apply (inv_server_none _ I); lia).
        destruct Hin.
    + apply (emit_stream_effect _ _ _ _ (inv_conn _ I c)) in Hin.
      destruct a; try discriminate; cbn in Hin, Hw; injection Hw as ->; subst sig;
        eexists; (split; [reflexivity|exact Logic.I]).
Qed.

(** X15: The error callback of a request is called for one reason only: the
    ['error'] event of that very request, with the error of the event.
    Errors of the server, of the response or of the client connection never
    reach it. *)
Theorem error_callback_only_for_request_errors history i h err :
  let st := after history in
  In (req_errorCallback h err) (trace (step i) st) ->
  i = host_emits (ERequest h) (ev_error err)
  /\ exists req, request_of st h = Some req /\ errorCallback req = true.
Proof.
  intros st Hin. pose proof (Inv_after history) as I. fold st in I.
  destruct i as [req|req|e sig]; cbn [step] in Hin.
  - exfalso. rewrite createChromiumSocket_trace in Hin. apply in_app_iff in Hin as [Hin|Hin].
    + apply remap_logs in Hin as [entry [=]].
    + repeat (destruct Hin as [[=]|Hin]). destruct Hin.
  - exfalso. unfold authenticateChromiumSocket in Hin. revert Hin. munfold.
    destruct (js_get _ _); cbn; intros Hin; repeat (destruct Hin as [[=]|Hin]); destruct Hin.
  - destruct e as [h'|r|s|c].
    + destruct (decide (h' < next_request st)%nat) as [Hh|Hh].
      * destruct (inv_request _ I h' Hh) as [req E].
        destruct (emit_request req h' sig st E) as [_ Ht]. rewrite Ht in Hin.
        destruct sig; try (cbn in Hin; repeat (destruct Hin as [[=]|Hin]); destruct Hin; fail).
        destruct (errorCallback req) eqn:Hc; cbn in Hin;
          repeat (destruct Hin as [Heq|Hin]; [try discriminate|]); try destruct Hin.
        injection Heq as -> ->. split; [reflexivity|].
        exists req. split; [apply (request_of_known _ _ _ E)|exact Hc].
      * exfalso. unfold trace in Hin.
        rewrite emit_none in Hin by (apply (inv_request_none _ I); lia). destruct Hin.
    + exfalso. apply (emit_stream_effect _ _ _ _ (inv_response _ I r)) in Hin. exact Hin.
    + exfalso. destruct (decide (s < length (servers st))%nat) as [Hs|Hs].
      * destruct (lookup_lt_is_Some_2 _ _ Hs) as [srv Hsrv].
        destruct (emit_server s srv sig st (inv_server _ I s Hs) Hsrv) as [_ Ht].
        rewrite Ht in Hin.
        destruct sig; try destruct (clientConn srv); cbn in Hin;
          repeat (destruct Hin as [[=]|Hin]); destruct Hin.
      * unfold trace in Hin. rewrite emit_none in Hin by (apply (inv_server_none _ I); lia).
        destruct Hin.
    + exfalso. apply (emit_stream_effect _ _ _ _ (inv_conn _ I c)) in Hin. exact Hin.
Qed.


End More.

(** ** The connection manager module *)

(** X17: The package [runtime-p2p] is asked for exactly when multi-runtime is
    enabled and either no security realm is set or the mesh is enabled;
    [meshEnabled] ends up true exactly when it was asked for and could be
    loaded; and whenever [meshEnabled] is false the exported manager is the
    one that does nothing: [connectToRuntime] and [resolveIdentity] return
    rejected promises and there are no connections. *)
Theorem p2p_manager_only_when_enabled (argo : gmap string ArgValue) (p2p : RequireResult) :
  let wanted :=
    (arg_truthy (argo_get argo "enable-multi-runtime")
     && (negb (arg_truthy (argo_get argo "security-realm"))
         || arg_truthy (argo_get argo "enable-mesh")))%bool in
  let loaded := load_connection_manager argo p2p in
  (In require_runtime_p2p loaded.2 <-> wanted = true)
  /\ (meshEnabled loaded.1 = true <->
      wanted = true /\ exists exported, p2p = require_returns exported)
  /\ (meshEnabled loaded.1 = false ->
      connectionManager loaded.1 = cm_noop
      /\ connectToRuntime (connectionManager loaded.1) = rejected_promise
      /\ resolveIdentity (connectionManager loaded.1) = rejected_promise
      /\ connections (connectionManager loaded.1) = Some []).
Proof.
  unfold load_connection_manager, multiRuntimeCommandLineFlag, enableMeshCommandLineFlag,
    securityRealmFlag.
  destruct (arg_truthy (argo_get argo "enable-multi-runtime"));
    destruct (negb (arg_truthy (argo_get argo "security-realm"))
              || arg_truthy (argo_get argo "enable-mesh"))%bool;
    destruct p2p as [message|exported]; cbn;
    repeat split; try tauto; try discriminate; eauto;
    try (intros [? [? [=]]]); try (intros [[=] _]); try (intros [=]).
Qed.

(** *** The statements at the sample request *)

Lemma sample_ready_wired :
  wired (@after nodeUrl sample_ready) sample_request 0 0 7 None.
Proof.
  split; [vm_compute; reflexivity .. |]. intros c [=].
Defined.

Lemma same_url_requests_share_the_entry_witness :
  url sample_request <> "__proto__"
  /\ Forall (fun i => quiet i = true)
       [host_emits (EServer 1) (ev_listening 8000%Z)]
  /\ let st0 := @after nodeUrl [] in
     let h1 := next_request st0 in
     let st1 := exec (@run nodeUrl [ call_createChromiumSocket sample_request;
                            host_emits (ERequest 0) (ev_requestSocketConnected 7) ]) st0 in
     let h2 := next_request st1 in
     let st2 := exec (@run nodeUrl [ call_createChromiumSocket sample_request;
                            host_emits (EServer 1) (ev_listening 8000%Z) ]) st1 in
     h1 < h2
     /\ own (requestMap st2) !! url sample_request = Some h2
     /\ own (requestMap (exec (@emit nodeUrl (ERequest h1) (ev_close false)) st2))
          !! url sample_request = None.
Proof.
  assert (url sample_request <> "__proto__") as Hp by discriminate.
  assert (Forall (fun i => quiet i = true)
            [host_emits (EServer 1) (ev_listening 8000%Z)]) as Hq
    by (repeat constructor).
  split; [exact Hp|]. split; [exact Hq|].
  exact (@same_url_requests_share_the_entry nodeUrl [] sample_request
           [host_emits (ERequest 0) (ev_requestSocketConnected 7)] sample_request
           [host_emits (EServer 1) (ev_listening 8000%Z)] eq_refl Hp Hq).
Defined.

Lemma credentials_reach_the_request_witness :
  url sample_request <> "__proto__"
  /\ Forall (fun i => quiet i = true) (tl sample_ready)
  /\ let st := exec (@run nodeUrl (call_createChromiumSocket sample_request :: tl sample_ready))
                 (@after nodeUrl []) in
     authenticateChromiumSocket
       {| auth_url := "rtmp://host:443/stream"; username := "user"; password := "secret" |} st
     = (tt, st,
        [ authenticateSocket (request_object (next_request (@after nodeUrl [])))
            "user" "secret" ]).
Proof.
  assert (url sample_request <> "__proto__") as Hp by discriminate.
  assert (Forall (fun i => quiet i = true) (tl sample_ready)) as Hq
    by (repeat constructor).
  split; [exact Hp|]. split; [exact Hq|].
  exact (@credentials_reach_the_request nodeUrl [] sample_request (tl sample_ready)
           {| auth_url := "rtmp://host:443/stream"; username := "user"; password := "secret" |}
           Hp eq_refl Hq).
Defined.

Lemma authenticate_after_close_is_silent_witness :
  (url sample_request ∉ ObjectPrototype)
  /\ Forall (fun i => quiet i = true) (tl sample_ready)
  /\ let h := next_request (@after nodeUrl []) in
     let st := exec (@run nodeUrl (call_createChromiumSocket sample_request :: tl sample_ready
                            ++ [host_emits (ERequest h) (ev_close false)]))
                 (@after nodeUrl []) in
     authenticateChromiumSocket
       {| auth_url := "rtmp://host:443/stream"; username := "user"; password := "secret" |} st
     = (tt, st, []).
Proof.
  assert (url sample_request ∉ ObjectPrototype) as Hn.
  { apply (bool_decide_unpack _). vm_compute. exact I. }
  assert (Forall (fun i => quiet i = true) (tl sample_ready)) as Hq
    by (repeat constructor).
  split; [exact Hn|]. split; [exact Hq|].
  exact (@authenticate_after_close_is_silent nodeUrl [] sample_request (tl sample_ready)
           {| auth_url := "rtmp://host:443/stream"; username := "user"; password := "secret" |}
           (List.Forall_nil _) Hn eq_refl Hq).
Defined.

Lemma session_gets_wired_witness :
  entries_of (EResponse 7) (@after nodeUrl []) = []
  /\ entries_of (EConn 3) (@after nodeUrl []) = []
  /\ wired (exec (@run nodeUrl [ call_createChromiumSocket sample_request;
                        host_emits (ERequest (next_request (@after nodeUrl [])))
                          (ev_requestSocketConnected 7);
                        host_emits (EServer (length (servers (@after nodeUrl []))))
                          (ev_connection 3) ]) (@after nodeUrl []))
           sample_request (next_request (@after nodeUrl []))
           (length (servers (@after nodeUrl []))) 7 (Some 3).
Proof.
  split; [reflexivity|]. split; [reflexivity|].
  exact (@session_gets_wired nodeUrl [] sample_request 7 3 eq_refl eq_refl).
Defined.

Lemma first_connection_is_accepted_witness :
  wired (@after nodeUrl sample_ready) sample_request 0 0 7 None
  /\ entries_of (EConn 3) (@after nodeUrl sample_ready) = []
  /\ @emit nodeUrl (EServer 0) (ev_connection 3) (@after nodeUrl sample_ready)
     = (tt, accepted (@after nodeUrl sample_ready) 0 3 7,
        [ writeToLog (log_new_connection 3) ])
  /\ wired (accepted (@after nodeUrl sample_ready) 0 3 7) sample_request 0 0 7 (Some 3).
Proof.
  assert (entries_of (EConn 3) (@after nodeUrl sample_ready) = []) as Hc
    by (vm_compute; reflexivity).
  split; [exact sample_ready_wired|]. split; [exact Hc|].
  exact (@first_connection_is_accepted nodeUrl _ _ _ _ _ 3 sample_ready_wired Hc).
Defined.

Lemma listening_reports_the_port_witness :
  servers (@after nodeUrl sample_ready) !! 0 =
    Some {| proxyCallback := {| pc_req := sample_request; pc_request := 0 |};
            response := 7; clientConn := None |}
  /\ @run nodeUrl [ host_emits (EServer 0) (ev_listening 8000%Z);
           host_emits (EServer 0) (ev_listening 8001%Z) ]
         (@after nodeUrl sample_ready)
     = (tt, @after nodeUrl sample_ready,
        [ writeToLog (log_server_info 0);
          req_callback 0
            {| success := true;
               data := Some (8000%Z, @formatUrl nodeUrl (@parseUrl nodeUrl "rtmp://host:443/stream")) |};
          writeToLog (log_server_info 0);
          req_callback 0
            {| success := true;
               data := Some (8001%Z, @formatUrl nodeUrl (@parseUrl nodeUrl "rtmp://host:443/stream")) |} ]).
Proof.
  assert (servers (@after nodeUrl sample_ready) !! 0 =
    Some {| proxyCallback := {| pc_req := sample_request; pc_request := 0 |};
            response := 7; clientConn := None |}) as Hs by (vm_compute; reflexivity).
  split; [exact Hs|].
  exact (@listening_reports_the_port nodeUrl sample_ready 0 _ [8000%Z; 8001%Z] Hs).
Defined.

Lemma listener_error_tears_down_silently_witness :
  wired (@after nodeUrl sample_ready) sample_request 0 0 7 None
  /\ @settle nodeUrl 3 [host_emits (EServer 0) (ev_error "EADDRINUSE")]
        (@after nodeUrl sample_ready)
     = Some (unregistered (@after nodeUrl sample_ready) "rtmp://host:443/stream",
             [ writeToLog (log_server_error "EADDRINUSE"); server_close 0;
               writeToLog log_server_closed; writeToLog log_close_chromium_socket;
               request_closeSocket 0;
               writeToLog (log_request_closed "rtmp://host:443/stream") ]).
Proof.
  split; [exact sample_ready_wired|].
  exact (proj2 (@listener_error_tears_down_silently nodeUrl _ _ _ _ _ "EADDRINUSE"
                  sample_ready_wired)).
Defined.

Lemma socket_end_timeout_error_only_logged_witness :
  wired (@after nodeUrl sample_history) sample_request 0 0 7 (Some 3)
  /\ @settle nodeUrl 1 [host_emits (EConn 3) ev_timeout] (@after nodeUrl sample_history)
     = Some (@after nodeUrl sample_history, [ writeToLog log_socket_timeout ]).
Proof.
  split; [exact sample_wired|].
  exact (proj1 (proj2 (@socket_end_timeout_error_only_logged nodeUrl _ _ _ _ _ _ "reset"
                         sample_wired))).
Defined.

Lemma only_arrived_bytes_are_written_witness :
  In (request_writeSocket 0 [Byte.x01])
     (trace (@step nodeUrl (host_emits (EConn 3) (ev_data [Byte.x01])))
            (@after nodeUrl sample_history))
  /\ exists e, host_emits (EConn 3) (ev_data [Byte.x01]) = host_emits e (ev_data [Byte.x01])
               /\ match e with EConn _ | EResponse _ => True | _ => False end.
Proof.
  assert (In (request_writeSocket 0 [Byte.x01])
            (trace (@step nodeUrl (host_emits (EConn 3) (ev_data [Byte.x01])))
                   (@after nodeUrl sample_history))) as Hin.
  { vm_compute. repeat first [left; reflexivity | right]. }
  split; [exact Hin|].
  exact (@only_arrived_bytes_are_written nodeUrl sample_history _ _ [Byte.x01] Hin eq_refl).
Defined.

Lemma error_callback_only_for_request_errors_witness :
  In (req_errorCallback 0 "reset")
     (trace (@step nodeUrl (host_emits (ERequest 0) (ev_error "reset")))
            (@after nodeUrl sample_ready))
  /\ exists req, request_of (@after nodeUrl sample_ready) 0 = Some req
                 /\ errorCallback req = true.
Proof.
  assert (In (req_errorCallback 0 "reset")
            (trace (@step nodeUrl (host_emits (ERequest 0) (ev_error "reset")))
                   (@after nodeUrl sample_ready))) as Hin.
  { vm_compute. repeat first [left; reflexivity | right]. }
  split; [exact Hin|].
  exact (proj2 (@error_callback_only_for_request_errors nodeUrl sample_ready _ 0 "reset" Hin)).
Defined.
